(** * Dense motion network (first-order motion model, Paddle port)

    A shallow embedding of [scr/modules/dense_motion.py].

    Tensors are row-major arrays of real numbers together with their shape;
    the Paddle primitives used by the module ([reshape], [unsqueeze],
    [squeeze], [tile], [concat], [transpose], broadcasting arithmetic,
    [sum], [matmul], [inverse], [softmax], [sigmoid], [grid_sample]) are
    modelled on that representation, with [option] for the calls that can
    raise.  Keypoint sets and the output record are Python dictionaries and
    are modelled as finite maps with string keys.  Arithmetic is the
    arithmetic of the real numbers: the rounding of [float32] additions,
    products and quotients is not modelled, and equalities "within
    tolerance" are exact equalities.  The one exception is [sigmoid], whose
    range depends on rounding: it is computed in [float32], as Paddle's
    default data type has it. *)

From Stdlib Require Import Reals Lra Lia ZArith QArith Qround List.
From stdpp Require Import base option list strings gmap.

(** ** Shapes and row-major indexing *)

Record tensor := Tensor { shape : list nat; data : list R }.

Definition numel (s : list nat) : nat := foldr Nat.mul 1 s.

(** Flat offset of a multi-index in a row-major array of shape [s]. *)
Fixpoint ravel (s idx : list nat) : nat :=
  match s, idx with
  | _ :: s', i :: idx' => i * numel s' + ravel s' idx'
  | _, _ => 0
  end.

(** Multi-index of a flat offset. *)
Fixpoint unravel (s : list nat) (n : nat) : list nat :=
  match s with
  | [] => []
  | _ :: s' => n / numel s' :: unravel s' (n mod numel s')
  end.

(** [in_range idx s]: [idx] is a valid multi-index of an array of shape [s]. *)
Definition in_range (idx s : list nat) : Prop := Forall2 lt idx s.

(** A tensor is well formed when it holds one element per position. *)
Definition wf (t : tensor) : Prop := length (data t) = numel (shape t).

Definition get (t : tensor) (idx : list nat) : R :=
  nth (ravel (shape t) idx) (data t) 0%R.

(** The tensor of shape [s] whose element at [idx] is [f idx]. *)
Definition tabulate (s : list nat) (f : list nat → R) : tensor :=
  Tensor s (map (λ n, f (unravel s n)) (seq 0 (numel s))).

Definition rank (t : tensor) : nat := length (shape t).

(** ** The Paddle primitives used by the module *)

Global Instance R_eq_dec : EqDecision R := Req_dec_T.

Definition pad_left {A} (n : nat) (x : A) (l : list A) : list A :=
  replicate (n - length l) x ++ l.

(** Sum of [f 0 .. f (n-1)]. *)
Definition sum_upto (n : nat) (f : nat → R) : R :=
  foldr Rplus 0%R (f <$> seq 0 n).

(** [x.reshape(spec)].  An entry [-1] of [spec] is inferred from the number
    of elements, an entry [0] copies the dimension of [x] at that position;
    the call raises when the element counts disagree. *)
Definition dim_of (s : list nat) (inferred : nat) (p : nat) (z : Z) : nat :=
  if decide (z = -1)%Z then inferred
  else if decide (z = 0)%Z then nth p s 0
  else Z.to_nat z.

Definition dim_ok (s : list nat) (pz : nat * Z) : Prop :=
  (-1 ≤ pz.2)%Z ∧ (pz.2 = 0%Z → pz.1 < length s).

Global Instance dim_ok_dec s pz : Decision (dim_ok s pz).
Proof. unfold dim_ok. apply _. Defined.

Definition reshape (spec : list Z) (t : tensor) : option tensor :=
  let s := shape t in
  let known := numel (imap (dim_of s 1) spec) in
  let dims := imap (dim_of s (numel s / known)) spec in
  guard (Forall (dim_ok s) (zip (seq 0 (length spec)) spec));;
  guard (length (filter (λ z, z = (-1)%Z) spec) ≤ 1);;
  guard (numel dims = numel s);;
  Some (Tensor dims (data t)).

(** Python's negative axes count from the end. *)
Definition norm_axis (axis : Z) (n : nat) : option nat :=
  let a := if decide (axis < 0)%Z then (axis + Z.of_nat n)%Z else axis in
  guard (0 ≤ a < Z.of_nat n)%Z;; Some (Z.to_nat a).

(** [x.unsqueeze(axis)] inserts a dimension of size one. *)
Definition unsqueeze (axis : Z) (t : tensor) : option tensor :=
  a ← norm_axis axis (S (rank t));
  Some (Tensor (take a (shape t) ++ 1 :: drop a (shape t)) (data t)).

(** [x.squeeze(axis)] removes the dimension when its size is one. *)
Definition squeeze (axis : Z) (t : tensor) : option tensor :=
  a ← norm_axis axis (rank t);
  Some (if decide (shape t !! a = Some 1)
        then Tensor (delete a (shape t)) (data t) else t).

(** [paddle.tile(x, repeat_times)]: the shape and the repeat counts are
    aligned on the right, and element [idx] of the result is element
    [idx mod shape] of [x]. *)
Definition tile (repeat_times : list nat) (t : tensor) : tensor :=
  let r := length repeat_times `max` rank t in
  let s := pad_left r 1 (shape t) in
  let reps := pad_left r 1 repeat_times in
  tabulate (zip_with Nat.mul s reps)
           (λ idx, get (Tensor s (data t)) (zip_with Nat.modulo idx s)).

(** [paddle.concat([x, y], axis)]. *)
Definition concat (t1 t2 : tensor) (axis : nat) : option tensor :=
  let s1 := shape t1 in
  let s2 := shape t2 in
  guard (axis < length s1);;
  guard (<[axis:=0]> s1 = <[axis:=0]> s2);;
  let d1 := nth axis s1 0 in
  Some (tabulate (<[axis:=d1 + nth axis s2 0]> s1)
          (λ idx, let i := nth axis idx 0 in
                  if decide (i < d1) then get t1 idx
                  else get t2 (<[axis:=i - d1]> idx))).

(** [paddle.transpose(x, perm)]: dimension [q] of the result is dimension
    [perm[q]] of [x]. *)
Definition position (p : nat) (perm : list nat) : nat :=
  default 0 (fst <$> list_find (λ x, x = p) perm).

Definition transpose (t : tensor) (perm : list nat) : option tensor :=
  let s := shape t in
  guard (length perm = length s ∧ NoDup perm ∧ Forall (λ p, p < length s) perm);;
  Some (tabulate ((λ p, nth p s 0) <$> perm)
          (λ idx, get t ((λ p, nth (position p perm) idx 0) <$> seq 0 (length s)))).

(** Broadcasting of two shapes, aligned on the right. *)
Definition broadcast_dim (a b : nat) : option nat :=
  if decide (a = b) then Some a
  else if decide (a = 1) then Some b
  else if decide (b = 1) then Some a
  else None.

Definition broadcast_shape (s1 s2 : list nat) : option (list nat) :=
  let r := length s1 `max` length s2 in
  mapM (λ d, d) (zip_with broadcast_dim (pad_left r 1 s1) (pad_left r 1 s2)).

(** The index into an operand of shape [s] for the index [idx] of the
    broadcast result. *)
Definition broadcast_index (s idx : list nat) : list nat :=
  zip_with (λ d i, if decide (d = 1) then 0 else i) s
           (drop (length idx - length s) idx).

Definition binop (f : R → R → R) (t1 t2 : tensor) : option tensor :=
  s ← broadcast_shape (shape t1) (shape t2);
  Some (tabulate s (λ idx, f (get t1 (broadcast_index (shape t1) idx))
                             (get t2 (broadcast_index (shape t2) idx)))).

Definition sub := binop Rminus.
Definition add := binop Rplus.
Definition mul := binop Rmult.

(** [paddle.sum(x, axis)]. *)
Definition sum (t : tensor) (axis : nat) : option tensor :=
  let s := shape t in
  guard (axis < length s);;
  Some (tabulate (delete axis s)
          (λ idx, sum_upto (nth axis s 0)
                    (λ k, get t (take axis idx ++ k :: drop axis idx)))).

(** Entry [(i, j)] of the matrix at batch index [bi]. *)
Definition entry2 (x : tensor) (bi : list nat) (i j : nat) : R :=
  get x (bi ++ [i; j]).

(** [paddle.matmul(x, y)] for operands of rank at least two: a batch of
    matrix products, the batch dimensions being broadcast. *)
Definition matmul (x y : tensor) : option tensor :=
  let sx := shape x in
  let sy := shape y in
  guard (2 ≤ length sx ∧ 2 ≤ length sy);;
  let bx := take (length sx - 2) sx in
  let by_ := take (length sy - 2) sy in
  let m := nth (length sx - 2) sx 0 in
  let kx := nth (length sx - 1) sx 0 in
  let ky := nth (length sy - 2) sy 0 in
  let n := nth (length sy - 1) sy 0 in
  guard (kx = ky);;
  b ← broadcast_shape bx by_;
  Some (tabulate (b ++ [m; n])
          (λ idx, let bi := take (length b) idx in
                  let i := nth (length b) idx 0 in
                  let j := nth (S (length b)) idx 0 in
                  sum_upto kx (λ l, (entry2 x (broadcast_index bx bi) i l *
                                     entry2 y (broadcast_index by_ bi) l j)%R))).

(** [paddle.inverse(x)] for a batch of 2x2 matrices, the only size the
    module can go on with (the product with the two-component grid rejects
    any other).  The call raises when the elimination meets a zero pivot:
    in the arithmetic of the real numbers, when a matrix of the batch is
    singular.  (In [float32] the rounding of the elimination can leave a
    non-zero pivot for a singular matrix; a matrix with a zero row or a
    zero column has a zero pivot there too.) *)
Definition det2 (x : tensor) (bi : list nat) : R :=
  (entry2 x bi 0 0 * entry2 x bi 1 1 - entry2 x bi 0 1 * entry2 x bi 1 0)%R.

Definition inverse2 (x : tensor) (bi : list nat) (i j : nat) : R :=
  let adj := match i, j with
             | 0, 0 => entry2 x bi 1 1
             | 0, _ => (- entry2 x bi 0 1)%R
             | _, 0 => (- entry2 x bi 1 0)%R
             | _, _ => entry2 x bi 0 0
             end in
  (adj / det2 x bi)%R.

Definition inverse (x : tensor) : option tensor :=
  let s := shape x in
  let b := take (length s - 2) s in
  guard (drop (length s - 2) s = [2; 2]);;
  guard (Forall (λ n, det2 x (unravel b n) ≠ 0%R) (seq 0 (numel b)));;
  Some (tabulate s
          (λ idx, inverse2 x (take (length b) idx)
                    (nth (length b) idx 0) (nth (S (length b)) idx 0))).

(** [F.softmax(x, axis)]. *)
Definition softmax (t : tensor) (axis : nat) : option tensor :=
  let s := shape t in
  guard (axis < length s);;
  let d := nth axis s 0 in
  Some (tabulate s
          (λ idx, (exp (get t idx) /
                   sum_upto d (λ k, exp (get t (<[axis:=k]> idx))))%R)).

(** Rounding to [float32], to nearest with ties to even: a number of
    binary exponent [e] is rounded to a multiple of [2^(e - 23)], and below
    the normal range to a multiple of [2^(-149)]. *)
Definition exponent32 (x : R) : Z := Zfloor (ln (Rabs x) / ln 2).

Definition ulp32 (x : R) : R := powerRZ 2 (exponent32 x `max` (-126) - 23).

Definition nearest_even (q : R) : Z :=
  let n := Zfloor q in
  let r := (q - IZR n)%R in
  if Rlt_dec r (1 / 2) then n
  else if Rlt_dec (1 / 2) r then (n + 1)%Z
  else if Z.even n then n else (n + 1)%Z.

Definition round32 (x : R) : R := (IZR (nearest_even (x / ulp32 x)) * ulp32 x)%R.

(** [1 / (1 + exp(-x))] in [float32].  From [2^128] on the exponential is
    infinite, and so is the denominator: the quotient is zero.  The sum of
    1 and a finite number is finite. *)
Definition sigmoid32 (x : R) : R :=
  let e := round32 (exp (- x)) in
  if Rle_dec (powerRZ 2 128) e then 0%R
  else round32 (1 / round32 (1 + e)).

(** [F.sigmoid(x)]. *)
Definition sigmoid (t : tensor) : tensor :=
  tabulate (shape t) (λ idx, sigmoid32 (get t idx)).

(** [np.zeros(shape)]. *)
Definition zeros (s : list nat) : tensor := tabulate s (λ _, 0%R).

(** [F.grid_sample(x, grid, mode='bilinear', padding_mode='zeros',
    align_corners=True)].  With [align_corners=True] the coordinates -1 and
    +1 are the centres of the first and the last pixel. *)
Definition unnormalize (coord : R) (size : nat) : R :=
  ((coord + 1) / 2 * (INR size - 1))%R.

(** A pixel of an image of [h] rows and [w] columns, zero outside of it. *)
Definition pixel (img : nat → nat → R) (h w : nat) (y x : Z) : R :=
  if decide ((0 ≤ y < Z.of_nat h)%Z ∧ (0 ≤ x < Z.of_nat w)%Z)
  then img (Z.to_nat y) (Z.to_nat x) else 0%R.

Definition bilinear_sample (img : nat → nat → R) (h w : nat) (gx gy : R) : R :=
  let ix := unnormalize gx w in
  let iy := unnormalize gy h in
  let x0 := Zfloor ix in
  let y0 := Zfloor iy in
  let x1 := (x0 + 1)%Z in
  let y1 := (y0 + 1)%Z in
  let wx0 := (IZR x1 - ix)%R in
  let wx1 := (ix - IZR x0)%R in
  let wy0 := (IZR y1 - iy)%R in
  let wy1 := (iy - IZR y0)%R in
  (pixel img h w y0 x0 * (wx0 * wy0) + pixel img h w y0 x1 * (wx1 * wy0) +
   pixel img h w y1 x0 * (wx0 * wy1) + pixel img h w y1 x1 * (wx1 * wy1))%R.

(** Channel [c] of image [n] of a batch, as a function of row and column. *)
Definition plane (x : tensor) (n c : nat) : nat → nat → R :=
  λ i j, get x [n; c; i; j].

Definition grid_sample (x grid : tensor) : option tensor :=
  match shape x, shape grid with
  | [n; c; h; w], [n'; ho; wo; two] =>
      guard (n = n' ∧ two = 2);;
      Some (tabulate [n; c; ho; wo]
              (λ idx, let b := nth 0 idx 0 in
                      let ch := nth 1 idx 0 in
                      let i := nth 2 idx 0 in
                      let j := nth 3 idx 0 in
                      bilinear_sample (plane x b ch) h w
                        (get grid [b; i; j; 0]) (get grid [b; i; j; 1])))
  | _, _ => None
  end.

(** Modelled from the spec: [modules.util.make_coordinate_grid] is imported
    by the module and is not part of the sources.  Element [(i, j)] is
    [(x_j, y_i)], with [x] linearly spaced over [-1, 1] across the columns
    and [y] across the rows; non-positive dimensions are rejected. *)
Definition linspace (n k : nat) : R := (2 * (INR k / (INR n - 1)) - 1)%R.

Definition make_coordinate_grid (h w : nat) : option tensor :=
  guard (0 < h ∧ 0 < w);;
  Some (tabulate [h; w; 2]
          (λ idx, let i := nth 0 idx 0 in
                  let j := nth 1 idx 0 in
                  match nth 2 idx 0 with
                  | 0 => linspace w j
                  | _ => linspace h i
                  end)).

(** ** The module *)

(** Python dictionaries with string keys. *)
Abbreviation dict := (gmap string tensor).

(** A learned layer, applied to a tensor. *)
Abbreviation layer := (tensor → tensor).

Record hourglass_module := HourglassModule {
  out_filters : nat;
  hourglass_forward : layer
}.

(** The attributes of a [DenseMotionNetwork] instance. *)
Record DenseMotionNetwork := {
  hourglass : layer;
  mask : layer;
  occlusion : option layer;
  num_kp : nat;
  scale_factor : Q;
  kp_variance : R;
  down : option layer
}.

Definition Z_of_shape (s : list nat) : list Z := Z.of_nat <$> s.

Section dense_motion.

(** The collaborators of the module that are not part of the sources:
    [Hourglass], [AntiAliasInterpolation2d] and [kp2gaussian] of
    [modules.util], and the learned convolution [nn.Conv2D] (kernel 7x7,
    padding 3) whose weights stand for the state of the layer. *)
Variable Hourglass :
  ∀ (block_expansion in_features max_features num_blocks : nat), hourglass_module.
Variable weights : Type.
Variable Conv2D : weights → ∀ (in_channels out_channels : nat), layer.
Variable AntiAliasInterpolation2d : ∀ (channels : nat) (scale : Q), layer.
Variable kp2gaussian :
  ∀ (kp : dict) (spatial_size : list nat) (kp_variance : R), option tensor.

(** [__init__]; the two weights are the initial parameters of the mask
    and occlusion convolutions. *)
Definition init (mask_weights occlusion_weights : weights)
    (block_expansion num_blocks max_features num_kp num_channels : nat)
    (estimate_occlusion_map : bool) (scale_factor : Q) (kp_variance : R)
    : DenseMotionNetwork :=
  let hg := Hourglass block_expansion ((num_kp + 1) * (num_channels + 1))
                      max_features num_blocks in
  {| hourglass := hourglass_forward hg;
     mask := Conv2D mask_weights (out_filters hg) (num_kp + 1);
     occlusion := if estimate_occlusion_map
                  then Some (Conv2D occlusion_weights (out_filters hg) 1)
                  else None;
     num_kp := num_kp;
     scale_factor := scale_factor;
     kp_variance := kp_variance;
     down := if negb (Qeq_bool scale_factor 1)
             then Some (AntiAliasInterpolation2d num_channels scale_factor)
             else None |}.

(** [bs, _, h, w = source_image.shape] *)
Definition unpack4 (s : list nat) : option (nat * nat * nat * nat) :=
  match s with
  | [a; b; c; d] => Some (a, b, c, d)
  | _ => None
  end.

Definition create_heatmap_representations (self : DenseMotionNetwork)
    (source_image : tensor) (kp_driving kp_source : dict) : option tensor :=
  let spatial_size := drop 2 (shape source_image) in
  gaussian_driving ← kp2gaussian kp_driving spatial_size (kp_variance self);
  gaussian_source ← kp2gaussian kp_source spatial_size (kp_variance self);
  heatmap ← sub gaussian_driving gaussian_source;
  n ← shape heatmap !! 0;
  h ← spatial_size !! 0;
  w ← spatial_size !! 1;
  heatmap ← concat (zeros [n; 1; h; w]) heatmap 1;
  unsqueeze 2 heatmap.

(** The branch of [create_sparse_motions] taken when ['jacobian'] is a
    key of [kp_driving]. *)
Definition apply_jacobian (h w : nat) (kp_driving kp_source : dict)
    (coordinate_grid : tensor) : option tensor :=
  jacobian_source ← kp_source !! "jacobian";
  jacobian_driving ← kp_driving !! "jacobian";
  inverse_driving ← inverse jacobian_driving;
  jacobian ← matmul jacobian_source inverse_driving;
  match shape jacobian, shape coordinate_grid with
  | dim_1 :: dim_2 :: else_dim, _ :: _ :: dimm =>
      jacobian ← reshape ((-1)%Z :: Z_of_shape else_dim) jacobian;
      jacobian ← unsqueeze (-3) jacobian;
      jacobian ← unsqueeze (-3) jacobian;
      let jacobian := tile [1; h; w; 1; 1] jacobian in
      coordinate_grid ← reshape ((-1)%Z :: Z_of_shape dimm) coordinate_grid;
      column ← unsqueeze (-1) coordinate_grid;
      coordinate_grid ← matmul jacobian column;
      coordinate_grid ← squeeze (-1) coordinate_grid;
      reshape (Z_of_shape (dim_1 :: dim_2 :: drop 1 (shape coordinate_grid)))
              coordinate_grid
  | _, _ => None
  end.

Definition create_sparse_motions (self : DenseMotionNetwork)
    (source_image : tensor) (kp_driving kp_source : dict) : option tensor :=
  '(bs, _, h, w) ← unpack4 (shape source_image);
  identity_grid ← make_coordinate_grid h w;
  identity_grid ← reshape (Z_of_shape [1; 1; h; w; 2]) identity_grid;
  value_driving ← kp_driving !! "value";
  value_driving ← reshape (Z_of_shape [bs; num_kp self; 1; 1; 2]) value_driving;
  coordinate_grid ← sub identity_grid value_driving;
  coordinate_grid ←
    (if decide (is_Some (kp_driving !! "jacobian"))
     then apply_jacobian h w kp_driving kp_source coordinate_grid
     else Some coordinate_grid);
  value_source ← kp_source !! "value";
  value_source ← reshape (Z_of_shape [bs; num_kp self; 1; 1; 2]) value_source;
  driving_to_source ← add coordinate_grid value_source;
  let identity_grid := tile [bs; 1; 1; 1; 1] identity_grid in
  concat identity_grid driving_to_source 1.

Definition create_deformed_source_image (self : DenseMotionNetwork)
    (source_image sparse_motions : tensor) : option tensor :=
  '(bs, _, h, w) ← unpack4 (shape source_image);
  source_image ← reshape ((-1)%Z :: Z_of_shape [h; w]) source_image;
  source_image ← unsqueeze 1 source_image;
  source_image ← unsqueeze 1 source_image;
  let source_repeat := tile [num_kp self + 1; 1; 1; 1; 1] source_image in
  source_repeat ←
    reshape [Z.of_nat (bs * (num_kp self + 1)); (-1)%Z; Z.of_nat h; Z.of_nat w]
            source_repeat;
  sparse_motions ←
    reshape [Z.of_nat (bs * (num_kp self + 1)); Z.of_nat h; Z.of_nat w; (-1)%Z]
            sparse_motions;
  sparse_deformed ← grid_sample source_repeat sparse_motions;
  reshape [Z.of_nat bs; Z.of_nat (num_kp self + 1); (-1)%Z; Z.of_nat h; Z.of_nat w]
          sparse_deformed.

Definition forward (self : DenseMotionNetwork)
    (source_image : tensor) (kp_driving kp_source : dict) : option dict :=
  source_image ←
    (if negb (Qeq_bool (scale_factor self) 1)
     then down_layer ← down self; Some (down_layer source_image)
     else Some source_image);
  '(bs, _, h, w) ← unpack4 (shape source_image);
  let out_dict : dict := ∅ in
  heatmap_representation ←
    create_heatmap_representations self source_image kp_driving kp_source;
  sparse_motion ← create_sparse_motions self source_image kp_driving kp_source;
  deformed_source ← create_deformed_source_image self source_image sparse_motion;
  let out_dict := <["sparse_deformed" := deformed_source]> out_dict in
  buf ← concat heatmap_representation deformed_source 2;
  buf ← reshape [Z.of_nat bs; (-1)%Z; Z.of_nat h; Z.of_nat w] buf;
  let prediction := hourglass self buf in
  let mask_logits := mask self prediction in
  mask ← softmax mask_logits 1;
  let out_dict := <["mask" := mask]> out_dict in
  mask ← unsqueeze 2 mask;
  sparse_motion ← transpose sparse_motion [0; 1; 4; 2; 3];
  weighted ← mul sparse_motion mask;
  deformation ← sum weighted 1;
  deformation ← transpose deformation [0; 2; 3; 1];
  let out_dict := <["deformation" := deformation]> out_dict in
  Some (match occlusion self with
        | Some occlusion_layer =>
            let occlusion_map := sigmoid (occlusion_layer prediction) in
            <["occlusion_map" := occlusion_map]> out_dict
        | None => out_dict
        end).

End dense_motion.

(** ** Vocabulary of the statements *)

(** A requested dimension [z] agrees with the dimension [d]: either it is
    left to be inferred, or it is [d], which is positive. *)
Definition dim_matches (z : Z) (d : nat) : Prop :=
  z = (-1)%Z ∨ (z = Z.of_nat d ∧ 0 < d).

Definition dim_value (x : nat) (z : Z) : nat :=
  if decide (z = -1)%Z then x else Z.to_nat z.

(** The value of the identity grid at row [i], column [j]: component 0 is
    the abscissa, component 1 the ordinate. *)
Definition grid_value (h w i j c : nat) : R :=
  match c with
  | 0 => linspace w j
  | _ => linspace h i
  end.

(** Entry [(c, l)] of [source.jacobian · inverse(driving.jacobian)] for
    keypoint [k] of batch element [b]. *)
Definition jacobian_entry (jacobian_source jacobian_driving : tensor)
    (b k c l : nat) : R :=
  sum_upto 2 (λ m, (entry2 jacobian_source [b; k] c m *
                    inverse2 jacobian_driving [b; k] m l)%R).

(** The jacobians of a call as the module sees them: absent from the
    driving keypoints, or present on both sets. *)
Inductive jacobians :=
  | NoJacobian
  | Jacobians (jacobian_source jacobian_driving : tensor).

(** The jacobians are usable: when present they are batches of 2x2 matrices,
    one per keypoint, and the driving ones are invertible. *)
Definition jacobians_ok (kp_driving kp_source : dict) (bs K : nat)
    (J : jacobians) : Prop :=
  match J with
  | NoJacobian => kp_driving !! "jacobian" = None
  | Jacobians jacobian_source jacobian_driving =>
      kp_driving !! "jacobian" = Some jacobian_driving ∧
      kp_source !! "jacobian" = Some jacobian_source ∧
      shape jacobian_driving = [bs; K; 2; 2] ∧
      shape jacobian_source = [bs; K; 2; 2] ∧
      ∀ b k, b < bs → k < K → det2 jacobian_driving [b; k] ≠ 0%R
  end.

(** Component [c] of [z - kp_driving[b, k]] at the grid point [(i, j)]. *)
Definition driving_offset (value_driving : tensor) (h w b k i j c : nat) : R :=
  (grid_value h w i j c - get value_driving [b; k; c])%R.

(** Component [c] of the motion field of keypoint [k] of batch element [b]
    at the grid point [(i, j)]. *)
Definition keypoint_motion (J : jacobians) (value_driving value_source : tensor)
    (h w b k i j c : nat) : R :=
  match J with
  | NoJacobian =>
      (driving_offset value_driving h w b k i j c + get value_source [b; k; c])%R
  | Jacobians jacobian_source jacobian_driving =>
      (sum_upto 2 (λ l, (jacobian_entry jacobian_source jacobian_driving b k c l *
                         driving_offset value_driving h w b k i j l)%R) +
       get value_source [b; k; c])%R
  end.

(** A layer maps batches of [cin]-channel images to batches of
    [cout]-channel images of the same height and width. *)
Definition layer_maps (f : layer) (cin cout : nat) : Prop :=
  ∀ t n h w, shape t = [n; cin; h; w] → shape (f t) = [n; cout; h; w].

(** The layers of a network for [C]-channel images fit together. *)
Definition network_ok (self : DenseMotionNetwork) (C : nat) : Prop :=
  ∃ filters,
    layer_maps (hourglass self) ((num_kp self + 1) * (C + 1)) filters ∧
    layer_maps (mask self) filters (num_kp self + 1) ∧
    ∀ occlusion_layer, occlusion self = Some occlusion_layer →
      layer_maps occlusion_layer filters 1.

(** The image the network works on: the source image, downsampled when the
    scale factor is not one. *)
Definition scaled_image (self : DenseMotionNetwork) (source_image : tensor)
    : option tensor :=
  if negb (Qeq_bool (scale_factor self) 1)
  then down_layer ← down self; Some (down_layer source_image)
  else Some source_image.

(** The dictionary returned by [forward]. *)
Definition output_record (self : DenseMotionNetwork)
    (deformed_source mask deformation prediction : tensor) : dict :=
  let out_dict : dict :=
    <["deformation" := deformation]>
      (<["mask" := mask]> (<["sparse_deformed" := deformed_source]> ∅)) in
  match occlusion self with
  | Some occlusion_layer =>
      <["occlusion_map" := sigmoid (occlusion_layer prediction)]> out_dict
  | None => out_dict
  end.

(** A keypoint set carries the locations of [K] keypoints for each of the
    [bs] elements of the batch. *)
Definition keypoints_ok (kp : dict) (bs K : nat) : Prop :=
  ∃ value, kp !! "value" = Some value ∧ shape value = [bs; K; 2].

(** [kp2gaussian] yields one heatmap per keypoint at the given resolution. *)
Definition gaussian_ok (kp2gaussian : dict → list nat → R → option tensor)
    (self : DenseMotionNetwork) (kp : dict) (bs h w : nat) : Prop :=
  ∃ gaussian,
    kp2gaussian kp [h; w] (kp_variance self) = Some gaussian ∧
    shape gaussian = [bs; num_kp self; h; w].

(** The contract of a call of [forward]: the network works on the image
    [image], a batch of [bs] images of [C] channels, [h] rows and [w]
    columns; both keypoint sets hold [num_kp] keypoints per batch element;
    the jacobians are usable. *)
Definition valid_call (kp2gaussian : dict → list nat → R → option tensor)
    (self : DenseMotionNetwork) (source_image image : tensor)
    (kp_driving kp_source : dict) (bs C h w : nat) : Prop :=
  network_ok self C ∧
  scaled_image self source_image = Some image ∧
  shape image = [bs; C; h; w] ∧
  (0 < bs ∧ 0 < C ∧ 0 < num_kp self ∧ 0 < h ∧ 0 < w) ∧
  keypoints_ok kp_driving bs (num_kp self) ∧
  keypoints_ok kp_source bs (num_kp self) ∧
  (∃ J, jacobians_ok kp_driving kp_source bs (num_kp self) J) ∧
  gaussian_ok kp2gaussian self kp_driving bs h w ∧
  gaussian_ok kp2gaussian self kp_source bs h w.

(** A batch of identity matrices, one per keypoint. *)
Definition is_identity_jacobian (jacobian : tensor) (bs K : nat) : Prop :=
  shape jacobian = [bs; K; 2; 2] ∧
  ∀ b k r c, b < bs → k < K → r < 2 → c < 2 →
    get jacobian [b; k; r; c] = if decide (r = c) then 1%R else 0%R.


(** An unnormalized coordinate that lies a whole pixel outside of an axis of
    [size] pixels: the sample reads padding only. *)
Definition outside (coord : R) (size : nat) : Prop :=
  (unnormalize coord size < -1 ∨ INR size <= unnormalize coord size)%R.

(** The two ends of a normalized axis, -1 and +1, and the pixels they are
    the centres of under [align_corners=True]: the first and the last. *)
Definition corner_coordinate (last : bool) : R := if last then 1%R else (-1)%R.

Definition corner_index (last : bool) (size : nat) : nat :=
  if last then size - 1 else 0.

(** The matrix at batch index [bi] has a zero row or a zero column. *)
Definition has_zero_line (x : tensor) (bi : list nat) : Prop :=
  (∃ i, i < 2 ∧ entry2 x bi i 0 = 0%R ∧ entry2 x bi i 1 = 0%R) ∨
  (∃ j, j < 2 ∧ entry2 x bi 0 j = 0%R ∧ entry2 x bi 1 j = 0%R).

(** ** Stand-ins for the collaborators

    Simple instances of the learned layers and of the helpers of
    [modules.util], used to run the module on concrete inputs. *)
Module Standin.

(** Every output channel copies the first input channel. *)
Definition Hourglass (block_expansion in_features max_features num_blocks : nat)
    : hourglass_module :=
  HourglassModule block_expansion
    (λ t, tabulate (<[1:=block_expansion]> (shape t))
            (λ idx, get t (<[1:=0]> idx))).

(** A convolution that reads the first input channel and adds a bias. *)
Definition Conv2D (bias : R) (in_channels out_channels : nat) : layer :=
  λ t, tabulate (<[1:=out_channels]> (shape t))
         (λ idx, let x := get t (<[1:=0]> idx) in (bias + x)%R).

(** Nearest-pixel subsampling to the scaled resolution. *)
Definition scaled_size (n : nat) (scale : Q) : nat :=
  Z.to_nat (Qfloor (inject_Z (Z.of_nat n) * scale)).

Definition AntiAliasInterpolation2d (channels : nat) (scale : Q) : layer :=
  λ t, match shape t with
       | [n; c; h; w] =>
           let h' := scaled_size h scale in
           let w' := scaled_size w scale in
           tabulate [n; c; h'; w']
             (λ idx, get t [nth 0 idx 0; nth 1 idx 0;
                            nth 2 idx 0 * h / h'; nth 3 idx 0 * w / w'])
       | _ => t
       end.

(** The Gaussian heatmaps of the keypoints:
    [exp (-0.5 * |z - kp|^2 / kp_variance)]. *)
Definition kp2gaussian (kp : dict) (spatial_size : list nat) (kp_variance : R)
    : option tensor :=
  value ← kp !! "value";
  match shape value, spatial_size with
  | [bs; K; _], [h; w] =>
      Some (tabulate [bs; K; h; w]
              (λ idx, let b := nth 0 idx 0 in
                      let k := nth 1 idx 0 in
                      let i := nth 2 idx 0 in
                      let j := nth 3 idx 0 in
                      let dx := driving_offset value h w b k i j 0 in
                      let dy := driving_offset value h w b k i j 1 in
                      exp (-0.5 * (dx * dx + dy * dy) / kp_variance)))
  | _, _ => None
  end.

(** A network for single-channel images with [num_kp] keypoints. *)
Definition network (num_kp : nat) (estimate_occlusion_map : bool)
    (scale_factor : Q) : DenseMotionNetwork :=
  init Hourglass R Conv2D AntiAliasInterpolation2d 0%R 0%R
       4 1 8 num_kp 1 estimate_occlusion_map scale_factor 0.01%R.


(** One keypoint at the centre of the image: without jacobian, and with
    the identity, the zero matrix and a matrix with a zero row. *)
Definition kp_centre : dict := {["value" := Tensor [1; 1; 2] [0%R; 0%R]]}.

Definition kp_identity : dict :=
  <["jacobian" := Tensor [1; 1; 2; 2] [1%R; 0%R; 0%R; 1%R]]> kp_centre.


Definition kp_zero_row : dict :=
  <["jacobian" := Tensor [1; 1; 2; 2] [0%R; 0%R; 7%R; 21%R]]> kp_centre.

(** A batch of one image of 2x2 pixels and one of 4x4 pixels. *)
Definition image_2x2 : tensor := Tensor [1; 1; 2; 2] [1%R; 2%R; 3%R; 4%R].

Definition image_4x4 : tensor :=
  tabulate [1; 1; 4; 4] (λ idx, INR (nth 2 idx 0 * 4 + nth 3 idx 0)).

(** A batch of two images of one pixel, and two motion fields per image
    (the background and one keypoint). *)
Definition images_1x1 : tensor := Tensor [2; 1; 1; 1] [1%R; 2%R].

Definition motions_1x1 : tensor := zeros [2; 2; 1; 1; 2].

(** One keypoint on the top-left pixel centre, two keypoints at the centre,
    and a dictionary without keypoints. *)
Definition kp_corner : dict := {["value" := Tensor [1; 1; 2] [(-1)%R; (-1)%R]]}.

Definition kp_pair : dict :=
  {["value" := Tensor [1; 2; 2] [0%R; 0%R; 0%R; 0%R]]}.

Definition kp_empty : dict := ∅.

(** Motion fields for one 2x2 image: every location points far outside of
    the image, or at the centre of its last pixel. *)
Definition motions_outside : tensor := tabulate [1; 2; 2; 2; 2] (λ _, 5%R).

Definition motions_last_pixel : tensor := tabulate [1; 2; 2; 2; 2] (λ _, 1%R).

(** The tensors held by the keypoint dictionaries above. *)
Definition value_centre : tensor := Tensor [1; 1; 2] [0%R; 0%R].

Definition value_corner : tensor := Tensor [1; 1; 2] [(-1)%R; (-1)%R].


Definition jacobian_zero_row : tensor :=
  Tensor [1; 1; 2; 2] [0%R; 0%R; 7%R; 21%R].

(** An image without a batch axis. *)
Definition image_rank3 : tensor := Tensor [1; 2; 2] [1%R; 2%R; 3%R; 4%R].

End Standin.

(** * Properties *)

(** ** Row-major indexing *)

Lemma in_range_nil : in_range [] [].
Proof. constructor. Qed.

Lemma in_range_cons i idx d s :
  in_range (i :: idx) (d :: s) ↔ i < d ∧ in_range idx s.
Proof. unfold in_range. apply Forall2_cons. Qed.

Lemma in_range_length idx s : in_range idx s → length idx = length s.
Proof. apply Forall2_length. Qed.

Lemma ravel_lt s idx : in_range idx s → ravel s idx < numel s.
Proof.
  induction 1 as [|i d idx s Hi _ IH]; simpl; [lia|].
  change (foldr Nat.mul 1 s) with (numel s). nia.
Qed.

Lemma unravel_ravel s idx : in_range idx s → unravel s (ravel s idx) = idx.
Proof.
  induction 1 as [|i d idx s Hi Hr IH]; simpl; [done|].
  pose proof (ravel_lt _ _ Hr) as Hlt.
  rewrite Nat.div_add_l by lia.
  rewrite (Nat.div_small (ravel s idx)) by done.
  rewrite Nat.add_0_r. f_equal.
  rewrite Nat.add_comm, Nat.Div0.mod_add, Nat.mod_small by done. done.
Qed.

Lemma ravel_unravel s n : n < numel s → ravel s (unravel s n) = n.
Proof.
  revert n. induction s as [|d s IH]; intros n Hn; simpl in *; [lia|].
  change (foldr Nat.mul 1 s) with (numel s) in *.
  assert (numel s ≠ 0) by nia.
  rewrite IH by (apply Nat.mod_upper_bound; done).
  pose proof (Nat.div_mod_eq n (numel s)). lia.
Qed.

Lemma unravel_in_range s n : n < numel s → in_range (unravel s n) s.
Proof.
  revert n. induction s as [|d s IH]; intros n Hn; simpl in *.
  - apply in_range_nil.
  - change (foldr Nat.mul 1 s) with (numel s) in *.
    assert (numel s ≠ 0) by nia.
    apply in_range_cons. split.
    + apply Nat.Div0.div_lt_upper_bound. lia.
    + apply IH, Nat.mod_upper_bound; done.
Qed.

Lemma nth_map_seq {A} (f : nat → A) len n d :
  n < len → nth n (map f (seq 0 len)) d = f n.
Proof.
  intros Hn. rewrite (nth_indep _ d (f 0)) by (rewrite length_map, length_seq; done).
  rewrite (map_nth f (seq 0 len) 0 n), seq_nth; done.
Qed.

Lemma wf_tabulate s f : wf (tabulate s f).
Proof. unfold wf, tabulate; simpl. by rewrite length_map, length_seq. Qed.

Lemma shape_tabulate s f : shape (tabulate s f) = s.
Proof. done. Qed.

Lemma shape_zeros s : shape (zeros s) = s.
Proof. done. Qed.

Lemma get_tabulate s f idx :
  in_range idx s → get (tabulate s f) idx = f idx.
Proof.
  intros Hr. unfold get, tabulate; simpl.
  rewrite nth_map_seq by (by apply ravel_lt). by rewrite unravel_ravel.
Qed.

(** Two well-formed tensors of the same shape with the same elements
    are equal. *)
Lemma tensor_ext t1 t2 :
  wf t1 → wf t2 → shape t1 = shape t2 →
  (∀ idx, in_range idx (shape t1) → get t1 idx = get t2 idx) →
  t1 = t2.
Proof.
  destruct t1 as [s1 d1], t2 as [s2 d2]; unfold wf, get; simpl.
  intros H1 H2 -> Hget. f_equal.
  apply (nth_ext _ _ 0%R 0%R); [congruence|].
  intros n Hn. rewrite H1 in Hn.
  specialize (Hget (unravel s2 n) (unravel_in_range _ _ Hn)).
  by rewrite ravel_unravel in Hget.
Qed.


(** ** The primitives *)

Lemma numel_cons d s : numel (d :: s) = d * numel s.
Proof. done. Qed.

Lemma numel_pos s : Forall (λ d, 0 < d) s → 0 < numel s.
Proof. induction 1; simpl; [lia|]. change (foldr Nat.mul 1 l) with (numel l). nia. Qed.

Lemma dim_value_of_nat x d : 0 < d → dim_value x (Z.of_nat d) = d.
Proof. intros. unfold dim_value. rewrite decide_False by lia. apply Nat2Z.id. Qed.

Lemma imap_dim_of s x spec dims :
  Forall2 dim_matches spec dims →
  imap (dim_of s x) spec = dim_value x <$> spec.
Proof.
  intros H. rewrite <-imap_const. apply imap_ext. intros i z Hz; simpl.
  unfold dim_of, dim_value.
  destruct (Forall2_lookup_l _ _ _ _ _ H Hz) as (d & _ & [->|[-> ?]]); [done|].
  rewrite !decide_False by lia. done.
Qed.

Lemma dim_value_resolve spec dims :
  Forall2 dim_matches spec dims →
  Forall (λ d, 0 < d) dims →
  (length (filter (λ z, z = (-1)%Z) spec) = 0 →
     ∀ x, dim_value x <$> spec = dims) ∧
  (length (filter (λ z, z = (-1)%Z) spec) = 1 →
     ∃ d, 0 < numel (dim_value 1 <$> spec) ∧
          numel dims = d * numel (dim_value 1 <$> spec) ∧
          dim_value d <$> spec = dims).
Proof.
  induction 1 as [|z d spec dims Hm _ IH]; intros Hpos.
  - split; [done|]. simpl; lia.
  - apply Forall_cons in Hpos as [Hd Hpos].
    destruct (IH Hpos) as [IH0 IH1]. clear IH.
    rewrite filter_cons. destruct Hm as [->|[-> _]].
    + rewrite decide_True by done. simpl. split; [lia|].
      intros Hc. exists d.
      assert (Hc0 : length (filter (λ z, z = (-1)%Z) spec) = 0) by lia.
      rewrite !(IH0 Hc0).
      pose proof (numel_pos _ Hpos). split; [lia|]. split; [lia|done].
    + rewrite decide_False by lia. split.
      * intros Hc x. rewrite fmap_cons, (IH0 Hc), dim_value_of_nat; done.
      * intros Hc. destruct (IH1 Hc) as (d' & Hk & Hn & Hd').
        exists d'. rewrite !fmap_cons, !numel_cons, Hd', Hn.
        rewrite !dim_value_of_nat by done.
        split; [nia|]. split; [lia|done].
Qed.

Lemma dim_ok_zip s l spec dims :
  Forall2 dim_matches spec dims → Forall (dim_ok s) (zip l spec).
Proof.
  intros H. revert l. induction H as [|z d spec dims Hm _ IH]; intros [|p l]; simpl;
    try by constructor.
  constructor; [|apply IH]. unfold dim_ok; simpl.
  destruct Hm as [->|[-> ?]]; lia.
Qed.

(** [reshape] succeeds, and keeps the row-major data, when the requested
    dimensions have the element count of the tensor. *)
Lemma reshape_Some spec dims t :
  Forall2 dim_matches spec dims →
  length (filter (λ z, z = (-1)%Z) spec) ≤ 1 →
  Forall (λ d, 0 < d) dims →
  numel dims = numel (shape t) →
  reshape spec t = Some (Tensor dims (data t)).
Proof.
  intros Hm Hc Hpos Hn. unfold reshape.
  rewrite option_guard_True by (eapply dim_ok_zip; done).
  rewrite option_guard_True by done.
  rewrite !(imap_dim_of _ _ _ _ Hm).
  destruct (dim_value_resolve _ _ Hm Hpos) as [H0 H1].
  assert (dim_value (numel (shape t) `div` numel (dim_value 1 <$> spec)) <$> spec = dims)
    as ->.
  { destruct (length (filter (λ z, z = (-1)%Z) spec)) as [|[|?]] eqn:E; [| |lia].
    - by apply H0.
    - destruct (H1 eq_refl) as (d & Hk & Hd & <-).
      rewrite <-Hn, Hd, Nat.div_mul by lia. done. }
  rewrite option_guard_True by done. done.
Qed.

Lemma get_data s t idx idx' :
  ravel s idx = ravel (shape t) idx' →
  get (Tensor s (data t)) idx = get t idx'.
Proof. unfold get; simpl. by intros ->. Qed.

Lemma get_Tensor t : Tensor (shape t) (data t) = t.
Proof. by destruct t. Qed.

Lemma unsqueeze_Some axis a t :
  norm_axis axis (S (rank t)) = Some a →
  unsqueeze axis t = Some (Tensor (take a (shape t) ++ 1 :: drop a (shape t)) (data t)).
Proof. unfold unsqueeze. by intros ->. Qed.

Lemma squeeze_Some axis a t :
  norm_axis axis (rank t) = Some a →
  shape t !! a = Some 1 →
  squeeze axis t = Some (Tensor (delete a (shape t)) (data t)).
Proof. unfold squeeze. intros -> H. simpl. by rewrite decide_True. Qed.

Lemma pad_left_full {A} n (x : A) l : n ≤ length l → pad_left n x l = l.
Proof. intros. unfold pad_left. by replace (n - length l) with 0 by lia. Qed.

Lemma tile_same_rank reps t :
  length reps = rank t →
  tile reps t = tabulate (zip_with Nat.mul (shape t) reps)
                         (λ idx, get t (zip_with Nat.modulo idx (shape t))).
Proof.
  intros Hr. unfold tile. rewrite Hr, Nat.max_id.
  rewrite !pad_left_full by (unfold rank in *; lia).
  by rewrite get_Tensor.
Qed.

(** Only the pixels inside the image are read by the sampler. *)
Lemma pixel_ext img1 img2 h w y x :
  (∀ i j, i < h → j < w → img1 i j = img2 i j) →
  pixel img1 h w y x = pixel img2 h w y x.
Proof. intros H. unfold pixel. case_decide; [|done]. apply H; lia. Qed.

Lemma bilinear_sample_ext img1 img2 h w gx gy :
  (∀ i j, i < h → j < w → img1 i j = img2 i j) →
  bilinear_sample img1 h w gx gy = bilinear_sample img2 h w gx gy.
Proof.
  intros H. unfold bilinear_sample.
  by rewrite !(pixel_ext img1 img2 h w _ _ H).
Qed.

Lemma grid_sample_Some x grid n c h w ho wo :
  shape x = [n; c; h; w] → shape grid = [n; ho; wo; 2] →
  grid_sample x grid =
    Some (tabulate [n; c; ho; wo]
            (λ idx, let b := nth 0 idx 0 in
                    let ch := nth 1 idx 0 in
                    let i := nth 2 idx 0 in
                    let j := nth 3 idx 0 in
                    bilinear_sample (plane x b ch) h w
                      (get grid [b; i; j; 0]) (get grid [b; i; j; 1]))).
Proof.
  intros Hx Hg. unfold grid_sample. rewrite Hx, Hg.
  by rewrite option_guard_True.
Qed.

Lemma mod_replicated n bs C c :
  c < C → (n * C + c) mod (bs * C) = (n mod bs) * C + c.
Proof.
  intros Hc. destruct (decide (bs = 0)) as [->|Hbs]; [done|].
  symmetry. apply (Nat.mod_unique _ _ (n / bs)).
  - pose proof (Nat.mod_upper_bound n bs Hbs). nia.
  - pose proof (Nat.div_mod_eq n bs). nia.
Qed.

Ltac in_range_tac :=
  repeat (apply in_range_cons; split; [try nia|]); try apply in_range_nil.

Ltac rewrite_shapes :=
  repeat match goal with
         | H : shape _ = _ |- _ => rewrite H
         end.

Ltac arith_tac := first [lia | ring | nia].

Ltac ravel_tac :=
  rewrite_shapes; rewrite ?shape_tabulate; cbn [ravel numel foldr shape app];
  arith_tac.

Ltac reshape_tac :=
  match goal with
  | |- Forall2 dim_matches _ _ =>
      repeat first [ apply Forall2_nil_2
                   | apply Forall2_cons_2;
                     [ first [ by left | right; split; [reflexivity | nia] ] | ] ]
  | |- Forall _ _ => repeat first [ apply Forall_nil_2 | apply Forall_cons_2; [nia|] ]
  | |- length (filter _ _) ≤ _ =>
      repeat (rewrite filter_cons;
              first [rewrite decide_True by done | rewrite decide_False by lia]);
      rewrite ?filter_nil; simpl; lia
  | |- numel _ = numel _ =>
      rewrite_shapes; rewrite ?shape_tabulate; cbn [numel foldr shape]; arith_tac
  end.

Ltac shape_tac :=
  rewrite ?shape_zeros, ?shape_tabulate; rewrite_shapes;
  cbn [length insert list_insert nth shape]; first [done | lia].

Ltac bind_tac :=
  cbn [mbind option_bind unpack4 shape data take drop app zip_with Z_of_shape
       fmap list_fmap].

Local Arguments tabulate : simpl never.
Local Arguments get : simpl never.
Local Arguments Z.of_nat : simpl never.
Local Arguments Nat.mul : simpl never.
Local Arguments Nat.add : simpl never.
Local Arguments bilinear_sample : simpl never.

Section deformed.
Context (self : DenseMotionNetwork).
Context (source_image sparse_motions : tensor) (bs C h w : nat).
Let K := num_kp self.
Hypothesis Hsrc : shape source_image = [bs; C; h; w].
Hypothesis Hsm : shape sparse_motions = [bs; K + 1; h; w; 2].
Hypothesis Hpos : 0 < bs ∧ 0 < C ∧ 0 < h ∧ 0 < w.

Lemma create_deformed_source_image_spec :
  ∃ out,
    create_deformed_source_image self source_image sparse_motions = Some out ∧
    shape out = [bs; K + 1; C; h; w] ∧ wf out ∧
    ∀ b k c i j, b < bs → k < K + 1 → c < C → i < h → j < w →
      get out [b; k; c; i; j] =
        bilinear_sample (plane source_image ((b * (K + 1) + k) mod bs) c) h w
          (get sparse_motions [b; k; i; j; 0])
          (get sparse_motions [b; k; i; j; 1]).
Proof.
  unfold create_deformed_source_image. rewrite Hsrc. fold K. bind_tac.
  rewrite (reshape_Some _ [bs * C; h; w] source_image); [|reshape_tac..]. bind_tac.
  rewrite (unsqueeze_Some _ 1) by reflexivity. bind_tac.
  rewrite (unsqueeze_Some _ 1) by reflexivity. bind_tac.
  rewrite tile_same_rank by reflexivity. bind_tac. rewrite !Nat.mul_1_r.
  rewrite (reshape_Some _ [bs * (K + 1); C; h; w] (tabulate _ _)); [|reshape_tac..].
  bind_tac.
  rewrite (reshape_Some _ [bs * (K + 1); h; w; 2] sparse_motions); [|reshape_tac..].
  bind_tac.
  erewrite grid_sample_Some by reflexivity. bind_tac.
  rewrite (reshape_Some _ [bs; K + 1; C; h; w] (tabulate _ _)); [|reshape_tac..].
  eexists. split; [done|]. split; [done|]. split.
  { unfold wf. cbn [data shape]. rewrite (wf_tabulate _ _ : length _ = _).
    rewrite shape_tabulate. unfold numel; simpl. lia. }
  intros b k c i j Hb Hk Hc Hi Hj.
  rewrite (get_data _ _ _ [b * (K + 1) + k; c; i; j]) by ravel_tac.
  rewrite get_tabulate by in_range_tac. cbn [nth].
  rewrite (get_data _ sparse_motions _ [b; k; i; j; 0]) by ravel_tac.
  rewrite (get_data _ sparse_motions _ [b; k; i; j; 1]) by ravel_tac.
  apply bilinear_sample_ext. intros y x Hy Hx. unfold plane.
  rewrite (get_data _ _ _ [(b * (K + 1) + k) * C + c; 0; 0; y; x]) by ravel_tac.
  rewrite get_tabulate by in_range_tac. cbn [zip_with].
  rewrite mod_replicated by done.
  rewrite (get_data _ source_image _ [(b * (K + 1) + k) mod bs; c; y; x]); [done|].
  rewrite !Nat.mod_1_r, (Nat.mod_small y), (Nat.mod_small x) by done. ravel_tac.
Qed.
End deformed.

(** The primitives on small arrays, as the Paddle documentation shows
    them. *)
Example tile_rows :
  tile [2; 1] (Tensor [3] [1%R; 2%R; 3%R]) =
  Tensor [2; 3] [1%R; 2%R; 3%R; 1%R; 2%R; 3%R].
Proof. reflexivity. Qed.

Example tile_first_axis :
  tile [2; 1] (Tensor [2; 2] [1%R; 2%R; 3%R; 4%R]) =
  Tensor [4; 2] [1%R; 2%R; 3%R; 4%R; 1%R; 2%R; 3%R; 4%R].
Proof. reflexivity. Qed.

Example reshape_infers :
  reshape [(-1)%Z; 2%Z] (Tensor [2; 3] [1%R; 2%R; 3%R; 4%R; 5%R; 6%R]) =
  Some (Tensor [3; 2] [1%R; 2%R; 3%R; 4%R; 5%R; 6%R]).
Proof. reflexivity. Qed.

Example reshape_rejects :
  reshape [4%Z; 2%Z] (Tensor [2; 3] [1%R; 2%R; 3%R; 4%R; 5%R; 6%R]) = None.
Proof. reflexivity. Qed.

Example transpose_matrix :
  transpose (Tensor [2; 3] [1%R; 2%R; 3%R; 4%R; 5%R; 6%R]) [1; 0] =
  Some (Tensor [3; 2] [1%R; 4%R; 2%R; 5%R; 3%R; 6%R]).
Proof. reflexivity. Qed.

Example unsqueeze_from_the_end :
  unsqueeze (-1) (Tensor [2; 3] [1%R; 2%R; 3%R; 4%R; 5%R; 6%R]) =
  Some (Tensor [2; 3; 1] [1%R; 2%R; 3%R; 4%R; 5%R; 6%R]).
Proof. reflexivity. Qed.

Example concat_columns :
  concat (Tensor [2; 1] [1%R; 2%R]) (Tensor [2; 2] [3%R; 4%R; 5%R; 6%R]) 1 =
  Some (Tensor [2; 3] [1%R; 3%R; 4%R; 2%R; 5%R; 6%R]).
Proof. reflexivity. Qed.

(** ** Broadcasting *)

Lemma broadcast_dim_same a : broadcast_dim a a = Some a.
Proof. unfold broadcast_dim. by rewrite decide_True. Qed.

Lemma broadcast_dim_1_l b : broadcast_dim 1 b = Some b.
Proof. unfold broadcast_dim. repeat case_decide; congruence. Qed.

Lemma broadcast_dim_1_r a : broadcast_dim a 1 = Some a.
Proof. unfold broadcast_dim. repeat case_decide; congruence. Qed.

Lemma broadcast_shape_same_length s1 s2 :
  length s1 = length s2 →
  broadcast_shape s1 s2 = mapM (λ d, d) (zip_with broadcast_dim s1 s2).
Proof.
  intros H. unfold broadcast_shape. rewrite H, Nat.max_id.
  rewrite !pad_left_full by lia. done.
Qed.

Lemma broadcast_shape_same s : broadcast_shape s s = Some s.
Proof.
  rewrite broadcast_shape_same_length by done.
  induction s as [|d s IH]; [done|].
  cbn [zip_with mapM]. rewrite broadcast_dim_same, IH. done.
Qed.

Lemma broadcast_index_same_length s idx :
  length idx = length s →
  broadcast_index s idx = zip_with (λ d i, if decide (d = 1) then 0 else i) s idx.
Proof. intros H. unfold broadcast_index. by rewrite H, Nat.sub_diag. Qed.

Lemma broadcast_index_in_range s idx :
  in_range idx s → broadcast_index s idx = idx.
Proof.
  intros H. rewrite broadcast_index_same_length by (by apply in_range_length).
  induction H as [|i d idx s Hi _ IH]; [done|].
  cbn [zip_with]. rewrite IH. case_decide; [f_equal; lia|done].
Qed.

Lemma binop_same_shape f t1 t2 :
  shape t1 = shape t2 →
  binop f t1 t2 =
    Some (tabulate (shape t1)
            (λ idx, f (get t1 (broadcast_index (shape t1) idx))
                      (get t2 (broadcast_index (shape t2) idx)))).
Proof. intros H. unfold binop. by rewrite <-H, broadcast_shape_same. Qed.

(** The entry of a broadcast index for a dimension that is not stretched. *)
Lemma broadcast_entry d i :
  i < d → (if decide (d = 1) then 0 else i) = i.
Proof. intros. case_decide; lia. Qed.

Lemma concat_Some t1 t2 axis :
  axis < length (shape t1) →
  <[axis:=0]> (shape t1) = <[axis:=0]> (shape t2) →
  concat t1 t2 axis =
    Some (tabulate (<[axis:=nth axis (shape t1) 0 + nth axis (shape t2) 0]> (shape t1))
            (λ idx, let i := nth axis idx 0 in
                    if decide (i < nth axis (shape t1) 0) then get t1 idx
                    else get t2 (<[axis:=i - nth axis (shape t1) 0]> idx))).
Proof. intros H1 H2. unfold concat. by rewrite !option_guard_True. Qed.

(** ** The heatmap representation *)

Section heatmap.
Context (kp2gaussian : dict → list nat → R → option tensor).
Context (self : DenseMotionNetwork).
Context (source_image : tensor) (kp_driving kp_source : dict).
Context (gaussian_driving gaussian_source : tensor) (bs C h w : nat).
Let K := num_kp self.
Hypothesis Hsrc : shape source_image = [bs; C; h; w].
Hypothesis Hgd :
  kp2gaussian kp_driving [h; w] (kp_variance self) = Some gaussian_driving.
Hypothesis Hgs :
  kp2gaussian kp_source [h; w] (kp_variance self) = Some gaussian_source.
Hypothesis Hgd_shape : shape gaussian_driving = [bs; K; h; w].
Hypothesis Hgs_shape : shape gaussian_source = [bs; K; h; w].

Lemma create_heatmap_representations_spec :
  ∃ out,
    create_heatmap_representations kp2gaussian self source_image
      kp_driving kp_source = Some out ∧
    shape out = [bs; K + 1; 1; h; w] ∧ wf out ∧
    ∀ b k i j, b < bs → k < K + 1 → i < h → j < w →
      get out [b; k; 0; i; j] =
        match k with
        | 0 => 0%R
        | S k' => (get gaussian_driving [b; k'; i; j] -
                   get gaussian_source [b; k'; i; j])%R
        end.
Proof.
  unfold create_heatmap_representations. rewrite Hsrc. cbn [drop].
  rewrite Hgd, Hgs. bind_tac. unfold sub.
  rewrite binop_same_shape by congruence. bind_tac.
  rewrite Hgd_shape, Hgs_shape, shape_tabulate. cbn [lookup list_lookup]. bind_tac.
  rewrite concat_Some by shape_tac.
  rewrite !shape_tabulate, !shape_zeros. cbn [nth insert list_insert]. bind_tac.
  rewrite (unsqueeze_Some _ 2) by reflexivity.
  rewrite !shape_tabulate. bind_tac.
  eexists. split; [done|]. split; [by rewrite (Nat.add_comm 1)|]. split.
  { unfold wf. cbn [data shape]. rewrite (wf_tabulate _ _ : length _ = _).
    rewrite shape_tabulate. cbn [numel foldr]. lia. }
  intros b k i j Hb Hk Hi Hj.
  rewrite (get_data _ _ _ [b; k; i; j]) by ravel_tac.
  rewrite get_tabulate by in_range_tac. cbn [nth].
  destruct k as [|k].
  - rewrite decide_True by lia. unfold zeros. rewrite get_tabulate by in_range_tac. done.
  - rewrite decide_False by lia. cbn [insert list_insert].
    replace (S k - 1) with k by lia.
    rewrite get_tabulate by in_range_tac.
    rewrite !broadcast_index_in_range by in_range_tac. done.
Qed.
End heatmap.

(** ** The sparse motions *)

Lemma make_coordinate_grid_Some h w :
  0 < h → 0 < w →
  make_coordinate_grid h w =
    Some (tabulate [h; w; 2]
            (λ idx, grid_value h w (nth 0 idx 0) (nth 1 idx 0) (nth 2 idx 0))).
Proof. intros. unfold make_coordinate_grid. by rewrite option_guard_True. Qed.

Ltac bidx_tac :=
  rewrite ?broadcast_index_same_length by done; cbn [zip_with];
  repeat first [ rewrite decide_True by done
               | rewrite broadcast_entry by (done || lia) ].

Ltac binop_tac :=
  unfold sub, add, mul, binop; cbn [shape];
  rewrite ?shape_tabulate;
  rewrite broadcast_shape_same_length by done;
  cbn [zip_with mapM];
  rewrite ?broadcast_dim_1_l, ?broadcast_dim_1_r, ?broadcast_dim_same;
  cbn [mbind option_bind mret option_ret].

Lemma in_range_2 idx a b :
  in_range idx [a; b] → ∃ i j, idx = [i; j] ∧ i < a ∧ j < b.
Proof.
  intros H. destruct idx as [|i [|j [|]]];
    try (apply in_range_length in H; done).
  apply in_range_cons in H as [? H]. apply in_range_cons in H as [? _]. eauto.
Qed.

Lemma inverse_Some x bs K :
  shape x = [bs; K; 2; 2] →
  (∀ b k, b < bs → k < K → det2 x [b; k] ≠ 0%R) →
  inverse x =
    Some (tabulate [bs; K; 2; 2]
            (λ idx, inverse2 x (take 2 idx) (nth 2 idx 0) (nth 3 idx 0))).
Proof.
  intros Hs Hdet. unfold inverse. rewrite Hs. cbn [length Nat.sub take drop].
  rewrite option_guard_True by done.
  rewrite option_guard_True; [done|].
  apply Forall_forall. intros n Hn. apply elem_of_seq in Hn.
  destruct (in_range_2 (unravel [bs; K] n) bs K) as (b & k & -> & ? & ?).
  { apply unravel_in_range. lia. }
  by apply Hdet.
Qed.

Lemma sum_upto_ext n f g :
  (∀ l, l < n → f l = g l) → sum_upto n f = sum_upto n g.
Proof.
  intros H. unfold sum_upto. f_equal. apply list_fmap_ext.
  intros i l Hl. apply lookup_seq in Hl as [-> ?]. by apply H.
Qed.

Lemma matmul_Some x y b m k n :
  shape x = b ++ [m; k] → shape y = b ++ [k; n] →
  matmul x y =
    Some (tabulate (b ++ [m; n])
            (λ idx, let bi := take (length b) idx in
                    let i := nth (length b) idx 0 in
                    let j := nth (S (length b)) idx 0 in
                    sum_upto k (λ l, (entry2 x (broadcast_index b bi) i l *
                                      entry2 y (broadcast_index b bi) l j)%R))).
Proof.
  intros Hx Hy. unfold matmul. rewrite Hx, Hy, !length_app. cbn [length].
  replace (length b + 2 - 2) with (length b) by lia.
  replace (length b + 2 - 1) with (S (length b)) by lia.
  rewrite !take_app_length.
  rewrite !(app_nth2 b) by lia.
  replace (S (length b) - length b) with 1 by lia. rewrite Nat.sub_diag.
  cbn [nth].
  rewrite !option_guard_True by (done || lia).
  by rewrite broadcast_shape_same.
Qed.

Section jacobian.
Context (kp_driving kp_source : dict) (coordinate_grid : tensor).
Context (jacobian_source jacobian_driving : tensor) (bs K h w : nat).
Hypothesis Hjd : kp_driving !! "jacobian" = Some jacobian_driving.
Hypothesis Hjs : kp_source !! "jacobian" = Some jacobian_source.
Hypothesis Hjd_shape : shape jacobian_driving = [bs; K; 2; 2].
Hypothesis Hjs_shape : shape jacobian_source = [bs; K; 2; 2].
Hypothesis Hdet : ∀ b k, b < bs → k < K → det2 jacobian_driving [b; k] ≠ 0%R.
Hypothesis Hcg : shape coordinate_grid = [bs; K; h; w; 2].
Hypothesis Hpos : 0 < bs ∧ 0 < K ∧ 0 < h ∧ 0 < w.

Lemma apply_jacobian_spec :
  ∃ out,
    apply_jacobian h w kp_driving kp_source coordinate_grid = Some out ∧
    shape out = [bs; K; h; w; 2] ∧
    ∀ b k i j c, b < bs → k < K → i < h → j < w → c < 2 →
      get out [b; k; i; j; c] =
        sum_upto 2 (λ l, (jacobian_entry jacobian_source jacobian_driving b k c l *
                          get coordinate_grid [b; k; i; j; l])%R).
Proof.
  unfold apply_jacobian. rewrite Hjs, Hjd. bind_tac.
  rewrite (inverse_Some _ bs K) by done. bind_tac.
  rewrite (matmul_Some _ _ [bs; K] 2 2 2) by done. bind_tac. cbn [length].
  rewrite shape_tabulate, Hcg. bind_tac.
  rewrite (reshape_Some _ [bs * K; 2; 2] (tabulate _ _)); [|reshape_tac..]. bind_tac.
  rewrite (unsqueeze_Some _ 1) by reflexivity. bind_tac.
  rewrite (unsqueeze_Some _ 2) by reflexivity. bind_tac.
  rewrite tile_same_rank by reflexivity. bind_tac.
  rewrite !Nat.mul_1_r, !Nat.mul_1_l.
  rewrite (reshape_Some _ [bs * K; h; w; 2] coordinate_grid); [|reshape_tac..]. bind_tac.
  rewrite (unsqueeze_Some _ 4) by reflexivity. bind_tac.
  rewrite (matmul_Some _ _ [bs * K; h; w] 2 2 1) by done. bind_tac. cbn [length].
  rewrite (squeeze_Some _ 4) by reflexivity. rewrite shape_tabulate.
  cbn [delete list_delete]. bind_tac.
  rewrite (reshape_Some _ [bs; K; h; w; 2]); [|reshape_tac..].
  eexists. split; [done|]. split; [done|].
  intros b k i j c Hb Hk Hi Hj Hc. cbn [data].
  assert (b * K + k < bs * K) by nia.
  rewrite (get_data _ _ _ [b * K + k; i; j; c; 0]) by ravel_tac.
  rewrite get_tabulate by in_range_tac. cbn [take nth].
  rewrite broadcast_index_in_range by in_range_tac.
  apply sum_upto_ext. intros l Hl. unfold entry2 at 1 3. cbn [app]. f_equal.
  - rewrite get_tabulate by in_range_tac. cbn [zip_with].
    rewrite !Nat.mod_1_r, (Nat.mod_small c), (Nat.mod_small l),
      (Nat.mod_small (b * K + k)) by done.
    rewrite (get_data _ _ _ [b; k; c; l]) by ravel_tac.
    rewrite get_tabulate by in_range_tac. cbn [take nth].
    rewrite broadcast_index_in_range by in_range_tac.
    apply sum_upto_ext. intros m Hm. f_equal. unfold entry2. cbn [app].
    by rewrite get_tabulate by in_range_tac.
  - apply get_data. ravel_tac.
Qed.
End jacobian.

Section sparse_motions.
Context (self : DenseMotionNetwork).
Context (source_image : tensor) (kp_driving kp_source : dict).
Context (value_driving value_source : tensor) (bs C h w : nat).
Let K := num_kp self.
Hypothesis Hsrc : shape source_image = [bs; C; h; w].
Hypothesis Hvd : kp_driving !! "value" = Some value_driving.
Hypothesis Hvs : kp_source !! "value" = Some value_source.
Hypothesis Hvd_shape : shape value_driving = [bs; K; 2].
Hypothesis Hvs_shape : shape value_source = [bs; K; 2].
Hypothesis Hpos : 0 < bs ∧ 0 < K ∧ 0 < h ∧ 0 < w.

Context (J : jacobians).
Hypothesis HJ : jacobians_ok kp_driving kp_source bs K J.

Lemma create_sparse_motions_spec :
  ∃ out,
    create_sparse_motions self source_image kp_driving kp_source = Some out ∧
    shape out = [bs; K + 1; h; w; 2] ∧ wf out ∧
    ∀ b k i j c, b < bs → k < K + 1 → i < h → j < w → c < 2 →
      get out [b; k; i; j; c] =
        match k with
        | 0 => grid_value h w i j c
        | S k' => keypoint_motion J value_driving value_source h w b k' i j c
        end.
Proof.
  unfold create_sparse_motions. rewrite Hsrc. fold K. bind_tac.
  rewrite make_coordinate_grid_Some by lia. bind_tac.
  rewrite (reshape_Some _ [1; 1; h; w; 2] (tabulate _ _)); [|reshape_tac..]. bind_tac.
  rewrite Hvd. bind_tac.
  rewrite (reshape_Some _ [bs; K; 1; 1; 2] value_driving); [|reshape_tac..]. bind_tac.
  unfold sub at 1. binop_tac.
  set (CG := tabulate [bs; K; h; w; 2] _).
  assert (HCG : ∀ b k i j c, b < bs → k < K → i < h → j < w → c < 2 →
            get CG [b; k; i; j; c] = driving_offset value_driving h w b k i j c).
  { intros b k i j c Hb Hk Hi Hj Hc. unfold CG.
    rewrite get_tabulate by in_range_tac.
    bidx_tac.
    rewrite (get_data _ _ _ [i; j; c]) by ravel_tac.
    rewrite get_tabulate by in_range_tac.
    rewrite (get_data _ _ _ [b; k; c]) by ravel_tac. done. }
  assert (∃ cg,
    (if decide (is_Some (kp_driving !! "jacobian"))
     then apply_jacobian h w kp_driving kp_source CG else Some CG) = Some cg ∧
    shape cg = [bs; K; h; w; 2] ∧
    ∀ b k i j c, b < bs → k < K → i < h → j < w → c < 2 →
      (get cg [b; k; i; j; c] + get value_source [b; k; c])%R =
      keypoint_motion J value_driving value_source h w b k i j c)
    as (cg & -> & Hcg_shape & Hcg).
  { destruct J as [|js jd]; cbn [jacobians_ok keypoint_motion] in *.
    - rewrite HJ, decide_False by (by intros [??]).
      exists CG. split; [done|]. split; [done|].
      intros. by rewrite HCG.
    - destruct HJ as (Hjd & Hjs & Hjd_shape & Hjs_shape & Hdet).
      rewrite Hjd, decide_True by done.
      destruct (apply_jacobian_spec kp_driving kp_source CG js jd bs K h w)
        as (cg & Hcg & Hshape & Hget); try done.
      exists cg. split; [done|]. split; [done|].
      intros. rewrite Hget by done. f_equal.
      apply sum_upto_ext. intros l Hl. by rewrite HCG. }
  clearbody CG. bind_tac. rewrite Hvs. bind_tac.
  rewrite (reshape_Some _ [bs; K; 1; 1; 2] value_source); [|reshape_tac..]. bind_tac.
  rewrite Hcg_shape. binop_tac.
  rewrite tile_same_rank by reflexivity. bind_tac.
  rewrite !Nat.mul_1_r, !Nat.mul_1_l.
  rewrite concat_Some by shape_tac.
  rewrite !shape_tabulate. cbn [nth insert list_insert].
  eexists. split; [done|]. split; [by rewrite (Nat.add_comm 1)|].
  split; [apply wf_tabulate|].
  intros b k i j c Hb Hk Hi Hj Hc.
  rewrite get_tabulate by in_range_tac. cbn [nth].
  destruct k as [|k].
  - rewrite decide_True by lia.
    rewrite get_tabulate by in_range_tac. cbn [zip_with].
    rewrite !Nat.mod_1_r, !Nat.mod_small by done.
    rewrite (get_data _ _ _ [i; j; c]) by ravel_tac.
    by rewrite get_tabulate by in_range_tac.
  - rewrite decide_False by lia. cbn [insert list_insert].
    replace (S k - 1) with k by lia.
    rewrite get_tabulate by in_range_tac.
    rewrite broadcast_index_in_range by in_range_tac.
    bidx_tac.
    rewrite (get_data _ _ _ [b; k; c]) by ravel_tac.
    apply Hcg; lia.
Qed.
End sparse_motions.

(** ** The forward pass *)

Lemma transpose_Some t perm :
  length perm = length (shape t) →
  NoDup perm →
  Forall (λ p, p < length (shape t)) perm →
  transpose t perm =
    Some (tabulate ((λ p, nth p (shape t) 0) <$> perm)
            (λ idx, get t ((λ p, nth (position p perm) idx 0)
                             <$> seq 0 (length (shape t))))).
Proof. intros. unfold transpose. by rewrite option_guard_True. Qed.

Ltac perm_tac :=
  rewrite_shapes; rewrite ?shape_tabulate; cbn [length];
  first [done | compute_done].

Section forward.
Context (kp2gaussian : dict → list nat → R → option tensor).
Context (self : DenseMotionNetwork).
Context (source_image image : tensor) (kp_driving kp_source : dict).
Context (value_driving value_source : tensor).
Context (gaussian_driving gaussian_source : tensor) (bs C h w : nat).
Context (J : jacobians).
Let K := num_kp self.
Hypothesis Hnet : network_ok self C.
Hypothesis Himage : scaled_image self source_image = Some image.
Hypothesis Hshape : shape image = [bs; C; h; w].
Hypothesis Hpos : 0 < bs ∧ 0 < C ∧ 0 < K ∧ 0 < h ∧ 0 < w.
Hypothesis Hvd : kp_driving !! "value" = Some value_driving.
Hypothesis Hvs : kp_source !! "value" = Some value_source.
Hypothesis Hvd_shape : shape value_driving = [bs; K; 2].
Hypothesis Hvs_shape : shape value_source = [bs; K; 2].
Hypothesis HJ : jacobians_ok kp_driving kp_source bs K J.
Hypothesis Hgd :
  kp2gaussian kp_driving [h; w] (kp_variance self) = Some gaussian_driving.
Hypothesis Hgs :
  kp2gaussian kp_source [h; w] (kp_variance self) = Some gaussian_source.
Hypothesis Hgd_shape : shape gaussian_driving = [bs; K; h; w].
Hypothesis Hgs_shape : shape gaussian_source = [bs; K; h; w].

(** The forward pass, with the tensor that is fed to the hourglass. *)
Lemma forward_spec_buffer :
  ∃ heatmap sparse_motion deformed_source buffer mask_tensor deformation,
    create_heatmap_representations kp2gaussian self image kp_driving kp_source =
      Some heatmap ∧
    shape buffer = [bs; (K + 1) * (C + 1); h; w] ∧
    (∀ b k c i j, b < bs → k < K + 1 → c < C + 1 → i < h → j < w →
       get buffer [b; k * (C + 1) + c; i; j] =
         match c with
         | 0 => get heatmap [b; k; 0; i; j]
         | S c' => get deformed_source [b; k; c'; i; j]
         end) ∧
    create_sparse_motions self image kp_driving kp_source = Some sparse_motion ∧
    create_deformed_source_image self image sparse_motion = Some deformed_source ∧
    forward kp2gaussian self source_image kp_driving kp_source =
      Some (output_record self deformed_source mask_tensor deformation (hourglass self buffer)) ∧
    (∃ filters, shape (hourglass self buffer) = [bs; filters; h; w] ∧
       layer_maps (mask self) filters (K + 1) ∧
       ∀ occlusion_layer, occlusion self = Some occlusion_layer →
         layer_maps occlusion_layer filters 1) ∧
    shape deformed_source = [bs; K + 1; C; h; w] ∧
    shape mask_tensor = [bs; K + 1; h; w] ∧
    shape deformation = [bs; h; w; 2] ∧
    (∀ b k i j, b < bs → k < K + 1 → i < h → j < w →
       get mask_tensor [b; k; i; j] =
         (exp (get (mask self (hourglass self buffer)) [b; k; i; j]) /
          sum_upto (K + 1)
            (λ k', exp (get (mask self (hourglass self buffer)) [b; k'; i; j])))%R) ∧
    (∀ b i j c, b < bs → i < h → j < w → c < 2 →
       get deformation [b; i; j; c] =
         sum_upto (K + 1)
           (λ k, (get mask_tensor [b; k; i; j] * get sparse_motion [b; k; i; j; c])%R)).
Proof.
  destruct Hnet as (filters & Hhg & Hmask & Hocc).
  destruct (create_sparse_motions_spec self image kp_driving kp_source
              value_driving value_source bs C h w) with (J := J)
    as (sm & Hsm & Hsm_shape & Hsm_wf & Hsm_get); try done; [lia|].
  destruct (create_deformed_source_image_spec self image sm bs C h w)
    as (ds & Hds & Hds_shape & Hds_wf & Hds_get); try done; [lia|].
  destruct (create_heatmap_representations_spec kp2gaussian self image
              kp_driving kp_source gaussian_driving gaussian_source bs C h w)
    as (hm & Hhm & Hhm_shape & Hhm_wf & Hhm_get); try done.
  unfold forward. change (if negb _ then _ else _) with (scaled_image self source_image).
  rewrite Himage. bind_tac. rewrite Hshape. bind_tac.
  rewrite Hhm. bind_tac. rewrite Hsm. bind_tac. rewrite Hds. bind_tac.
  rewrite concat_Some by shape_tac.
  rewrite Hhm_shape, Hds_shape. cbn [nth insert list_insert]. fold K. bind_tac.
  rewrite (reshape_Some _ [bs; (K + 1) * (C + 1); h; w] (tabulate _ _));
    [|reshape_tac..].
  bind_tac.
  set (buf := Tensor _ _).
  assert (Hbuf_shape : shape buf = [bs; (K + 1) * (C + 1); h; w]) by done.
  assert (Hbuf : ∀ b k c i j, b < bs → k < K + 1 → c < C + 1 → i < h → j < w →
            get buf [b; k * (C + 1) + c; i; j] =
              match c with
              | 0 => get hm [b; k; 0; i; j]
              | S c' => get ds [b; k; c'; i; j]
              end).
  { intros b k c i j Hb Hk Hc Hi Hj. unfold buf.
    rewrite (get_data _ _ _ [b; k; c; i; j]) by ravel_tac.
    rewrite get_tabulate by in_range_tac. cbn [nth].
    destruct c as [|c].
    - by rewrite decide_True by lia.
    - rewrite decide_False by lia. cbn [insert list_insert].
      by replace (S c - 1) with c by lia. }
  clearbody buf.
  assert (Hpred : shape (hourglass self buf) = [bs; filters; h; w])
    by (by apply Hhg).
  remember (hourglass self buf) as prediction eqn:Hprediction.
  assert (Hlogits : shape (mask self prediction) = [bs; K + 1; h; w])
    by (by eapply Hmask).
  unfold softmax. rewrite Hlogits. cbn [length nth].
  rewrite option_guard_True by lia. bind_tac.
  set (M := tabulate [bs; K + 1; h; w] _).
  assert (HM : ∀ b k i j, b < bs → k < K + 1 → i < h → j < w →
            get M [b; k; i; j] =
              (exp (get (mask self prediction) [b; k; i; j]) /
               sum_upto (K + 1)
                 (λ k', exp (get (mask self prediction) [b; k'; i; j])))%R).
  { intros b k i j Hb Hk Hi Hj. unfold M.
    by rewrite get_tabulate by in_range_tac. }
  assert (HM_shape : shape M = [bs; K + 1; h; w]) by done.
  clearbody M.
  rewrite (unsqueeze_Some _ 2) by (unfold rank; rewrite HM_shape; reflexivity).
  rewrite HM_shape. bind_tac.
  rewrite transpose_Some by perm_tac.
  rewrite Hsm_shape. cbn [fmap list_fmap nth length]. bind_tac.
  unfold mul at 1. binop_tac.
  set (W := tabulate [bs; K + 1; 2; h; w] _).
  assert (HW : ∀ b k c i j, b < bs → k < K + 1 → c < 2 → i < h → j < w →
            get W [b; k; c; i; j] =
              (get M [b; k; i; j] * get sm [b; k; i; j; c])%R).
  { intros b k c i j Hb Hk Hc Hi Hj. unfold W.
    rewrite get_tabulate by in_range_tac.
    rewrite broadcast_index_in_range by in_range_tac.
    rewrite get_tabulate by in_range_tac.
    bidx_tac.
    rewrite (get_data _ _ _ [b; k; i; j]) by ravel_tac.
    apply Rmult_comm. }
  assert (HW_shape : shape W = [bs; K + 1; 2; h; w]) by done.
  clearbody W.
  unfold sum. rewrite HW_shape. cbn [length nth delete list_delete].
  rewrite option_guard_True by lia. bind_tac.
  rewrite transpose_Some by perm_tac.
  rewrite shape_tabulate. cbn [fmap list_fmap nth length].
  exists hm, sm, ds, buf, M. eexists. rewrite <-Hprediction.
  split; [done|]. split; [done|]. split; [done|].
  split; [done|]. split; [done|]. split; [done|].
  split; [by exists filters|]. split; [done|]. split; [done|]. split; [done|].
  split; [done|].
  intros b i j c Hb Hi Hj Hc.
  rewrite get_tabulate by in_range_tac.
  change (_ <$> seq 0 4) with [b; c; i; j].
  rewrite get_tabulate by in_range_tac. cbn [take drop app].
  apply sum_upto_ext. intros k Hk. by apply HW.
Qed.

Lemma forward_spec :
  ∃ sparse_motion deformed_source prediction mask_tensor deformation,
    create_sparse_motions self image kp_driving kp_source = Some sparse_motion ∧
    create_deformed_source_image self image sparse_motion = Some deformed_source ∧
    forward kp2gaussian self source_image kp_driving kp_source =
      Some (output_record self deformed_source mask_tensor deformation prediction) ∧
    (∃ filters, shape prediction = [bs; filters; h; w] ∧
       layer_maps (mask self) filters (K + 1) ∧
       ∀ occlusion_layer, occlusion self = Some occlusion_layer →
         layer_maps occlusion_layer filters 1) ∧
    shape deformed_source = [bs; K + 1; C; h; w] ∧
    shape mask_tensor = [bs; K + 1; h; w] ∧
    shape deformation = [bs; h; w; 2] ∧
    (∀ b k i j, b < bs → k < K + 1 → i < h → j < w →
       get mask_tensor [b; k; i; j] =
         (exp (get (mask self prediction) [b; k; i; j]) /
          sum_upto (K + 1)
            (λ k', exp (get (mask self prediction) [b; k'; i; j])))%R) ∧
    (∀ b i j c, b < bs → i < h → j < w → c < 2 →
       get deformation [b; i; j; c] =
         sum_upto (K + 1)
           (λ k, (get mask_tensor [b; k; i; j] * get sparse_motion [b; k; i; j; c])%R)).
Proof.
  destruct forward_spec_buffer
    as (hm & sm & ds & buf & m & def & _ & _ & _ & H).
  by exists sm, ds, (hourglass self buf), m, def.
Qed.
End forward.

(** ** Sampling at pixel centres *)

(** A sample that falls exactly on the centre of pixel [(i, j)] is the
    value of that pixel. *)
Lemma bilinear_sample_at_pixel img h w gx gy i j :
  i < h → j < w →
  unnormalize gx w = INR j → unnormalize gy h = INR i →
  bilinear_sample img h w gx gy = img i j.
Proof.
  intros Hi Hj Hx Hy. unfold bilinear_sample. rewrite Hx, Hy.
  rewrite !INR_IZR_INZ, !ZfloorZ, !plus_IZR.
  unfold pixel at 1. rewrite decide_True by lia. rewrite !Nat2Z.id.
  ring.
Qed.

Lemma unnormalize_single coord : unnormalize coord 1 = INR 0.
Proof. unfold unnormalize. change (INR 1) with 1%R. change (INR 0) with 0%R. ring. Qed.


(** The two ends of a normalized axis are the centres of the first and of
    the last pixel. *)
Lemma unnormalize_corner last n :
  0 < n → unnormalize (corner_coordinate last) n = INR (corner_index last n).
Proof.
  intros Hn. unfold unnormalize, corner_coordinate, corner_index.
  destruct last.
  - rewrite minus_INR by lia. change (INR 1) with 1%R. field.
  - change (INR 0) with 0%R. field.
Qed.


(** An image of a single pixel is sampled at that pixel, wherever the
    coordinates point. *)
Lemma bilinear_sample_single img gx gy :
  bilinear_sample img 1 1 gx gy = img 0 0.
Proof. apply bilinear_sample_at_pixel; try lia; apply unnormalize_single. Qed.

(** ** Finite sums *)






(** ** Calls that satisfy the contract *)

Lemma forward_valid kp2gaussian self source_image image kp_driving kp_source
    bs C h w :
  valid_call kp2gaussian self source_image image kp_driving kp_source bs C h w →
  ∃ sparse_motion deformed_source prediction mask_tensor deformation,
    create_sparse_motions self image kp_driving kp_source = Some sparse_motion ∧
    create_deformed_source_image self image sparse_motion = Some deformed_source ∧
    forward kp2gaussian self source_image kp_driving kp_source =
      Some (output_record self deformed_source mask_tensor deformation prediction) ∧
    (∃ filters, shape prediction = [bs; filters; h; w] ∧
       layer_maps (mask self) filters (num_kp self + 1) ∧
       ∀ occlusion_layer, occlusion self = Some occlusion_layer →
         layer_maps occlusion_layer filters 1) ∧
    shape deformed_source = [bs; num_kp self + 1; C; h; w] ∧
    shape mask_tensor = [bs; num_kp self + 1; h; w] ∧
    shape deformation = [bs; h; w; 2] ∧
    (∀ b k i j, b < bs → k < num_kp self + 1 → i < h → j < w →
       get mask_tensor [b; k; i; j] =
         (exp (get (mask self prediction) [b; k; i; j]) /
          sum_upto (num_kp self + 1)
            (λ k', exp (get (mask self prediction) [b; k'; i; j])))%R) ∧
    (∀ b i j c, b < bs → i < h → j < w → c < 2 →
       get deformation [b; i; j; c] =
         sum_upto (num_kp self + 1)
           (λ k, (get mask_tensor [b; k; i; j] * get sparse_motion [b; k; i; j; c])%R)).
Proof.
  intros (Hnet & Himage & Hshape & Hpos & (vd & Hvd & Hvd_shape) &
          (vs & Hvs & Hvs_shape) & (J & HJ) &
          (gd & Hgd & Hgd_shape) & (gs & Hgs & Hgs_shape)).
  eapply forward_spec; eauto.
Qed.

(** The same, with the tensor that is fed to the hourglass. *)
Lemma forward_valid_buffer kp2gaussian self source_image image kp_driving
    kp_source bs C h w :
  valid_call kp2gaussian self source_image image kp_driving kp_source bs C h w →
  ∃ heatmap sparse_motion deformed_source buffer mask_tensor deformation,
    create_heatmap_representations kp2gaussian self image kp_driving kp_source =
      Some heatmap ∧
    create_sparse_motions self image kp_driving kp_source = Some sparse_motion ∧
    create_deformed_source_image self image sparse_motion = Some deformed_source ∧
    shape buffer = [bs; (num_kp self + 1) * (C + 1); h; w] ∧
    (∀ b k c i j, b < bs → k < num_kp self + 1 → c < C + 1 → i < h → j < w →
       get buffer [b; k * (C + 1) + c; i; j] =
         match c with
         | 0 => get heatmap [b; k; 0; i; j]
         | S c' => get deformed_source [b; k; c'; i; j]
         end) ∧
    forward kp2gaussian self source_image kp_driving kp_source =
      Some (output_record self deformed_source mask_tensor deformation
              (hourglass self buffer)) ∧
    (∃ filters, shape (hourglass self buffer) = [bs; filters; h; w] ∧
       ∀ occlusion_layer, occlusion self = Some occlusion_layer →
         layer_maps occlusion_layer filters 1) ∧
    (∀ b k i j, b < bs → k < num_kp self + 1 → i < h → j < w →
       get mask_tensor [b; k; i; j] =
         (exp (get (mask self (hourglass self buffer)) [b; k; i; j]) /
          sum_upto (num_kp self + 1)
            (λ k', exp (get (mask self (hourglass self buffer)) [b; k'; i; j])))%R).
Proof.
  intros (Hnet & Himage & Hshape & Hpos & (vd & Hvd & Hvd_shape) &
          (vs & Hvs & Hvs_shape) & (J & HJ) &
          (gd & Hgd & Hgd_shape) & (gs & Hgs & Hgs_shape)).
  destruct (forward_spec_buffer kp2gaussian self source_image image
              kp_driving kp_source vd vs gd gs bs C h w J)
    as (hm & sm & ds & buf & m & def & Hhm & Hbuf_shape & Hbuf & Hsm & Hds &
        Hfw & (filters & Hpred & _ & Hocc) & _ & _ & _ & Hm & _); try done.
  exists hm, sm, ds, buf, m, def.
  repeat (split; [done|]). split; [by exists filters|done].
Qed.

(** The entries of the output record. *)
Lemma output_record_lookup self deformed_source mask_tensor deformation prediction :
  let out := output_record self deformed_source mask_tensor deformation prediction in
  out !! "sparse_deformed" = Some deformed_source ∧
  out !! "mask" = Some mask_tensor ∧
  out !! "deformation" = Some deformation ∧
  out !! "occlusion_map" =
    (λ occlusion_layer, sigmoid (occlusion_layer prediction)) <$> occlusion self.
Proof.
  unfold output_record. destruct (occlusion self); cbn [fmap option_fmap option_map];
    repeat split; by simplify_map_eq.
Qed.

(** ** The mask *)



(** ** The stand-ins satisfy the contract *)

Lemma standin_layer_maps_hourglass be inf mf nb :
  layer_maps (hourglass_forward (Standin.Hourglass be inf mf nb)) inf be.
Proof. intros t n h w Hs. cbn. by rewrite Hs. Qed.

Lemma standin_layer_maps_conv bias cin cout :
  layer_maps (Standin.Conv2D bias cin cout) cin cout.
Proof. intros t n h w Hs. unfold Standin.Conv2D. cbn. by rewrite Hs. Qed.

Lemma standin_network_ok num_kp eom sf :
  network_ok (Standin.network num_kp eom sf) 1.
Proof.
  exists 4. split; [apply standin_layer_maps_hourglass|].
  split; [apply standin_layer_maps_conv|].
  intros occ Hocc. cbn in Hocc. destruct eom; [|done].
  injection Hocc as <-. apply standin_layer_maps_conv.
Qed.

Lemma standin_keypoints_ok kp :
  kp !! "value" = Some (Tensor [1; 1; 2] [0%R; 0%R]) → keypoints_ok kp 1 1.
Proof. intros H. eexists. split; [exact H|done]. Qed.

Lemma standin_gaussian_ok self kp h w :
  kp !! "value" = Some (Tensor [1; 1; 2] [0%R; 0%R]) → num_kp self = 1 →
  gaussian_ok Standin.kp2gaussian self kp 1 h w.
Proof.
  intros H HK. unfold gaussian_ok, Standin.kp2gaussian. rewrite H, HK. cbn.
  eexists. split; done.
Qed.

Lemma standin_valid_2x2 eom :
  valid_call Standin.kp2gaussian (Standin.network 1 eom 1)
    Standin.image_2x2 Standin.image_2x2 Standin.kp_centre Standin.kp_centre 1 1 2 2.
Proof.
  split; [apply standin_network_ok|].
  split; [done|]. split; [done|]. split; [cbn; lia|].
  split; [by apply standin_keypoints_ok|].
  split; [by apply standin_keypoints_ok|].
  split; [by exists NoJacobian|].
  split; by apply standin_gaussian_ok.
Qed.


(** ** The deformation *)

(** C3: for every call that satisfies the contract, the tensor returned
    under ['deformation'] has shape (batch, H, W, 2), H and W being the
    height and width of the image the network works on, and at every batch
    index and spatial location it is the sum over k = 0..K of
    [mask[b, k, i, j] * sparse_motion[b, k, i, j, :]]. *)
Theorem deformation_is_weighted_sum kp2gaussian self source_image image
    kp_driving kp_source bs C h w :
  valid_call kp2gaussian self source_image image kp_driving kp_source bs C h w →
  ∃ out sparse_motion mask_tensor deformation,
    forward kp2gaussian self source_image kp_driving kp_source = Some out ∧
    create_sparse_motions self image kp_driving kp_source = Some sparse_motion ∧
    out !! "mask" = Some mask_tensor ∧
    out !! "deformation" = Some deformation ∧
    shape deformation = [bs; h; w; 2] ∧
    ∀ b i j c, b < bs → i < h → j < w → c < 2 →
      get deformation [b; i; j; c] =
        sum_upto (num_kp self + 1)
          (λ k, (get mask_tensor [b; k; i; j] * get sparse_motion [b; k; i; j; c])%R).
Proof.
  intros Hvalid.
  destruct (forward_valid _ _ _ _ _ _ _ _ _ _ Hvalid)
    as (sm & ds & pred & m & def & Hsm & _ & Hfw & _ & _ & _ & Hdef_shape & _ & Hdef).
  exists (output_record self ds m def pred), sm, m, def.
  split; [done|]. split; [done|].
  split; [apply output_record_lookup|]. split; [apply output_record_lookup|].
  split; done.
Qed.

Lemma deformation_is_weighted_sum_witness :
  valid_call Standin.kp2gaussian (Standin.network 1 true 1)
    Standin.image_2x2 Standin.image_2x2 Standin.kp_centre Standin.kp_centre 1 1 2 2 ∧
  ∃ out sparse_motion mask_tensor deformation,
    forward Standin.kp2gaussian (Standin.network 1 true 1) Standin.image_2x2
      Standin.kp_centre Standin.kp_centre = Some out ∧
    create_sparse_motions (Standin.network 1 true 1) Standin.image_2x2
      Standin.kp_centre Standin.kp_centre = Some sparse_motion ∧
    out !! "mask" = Some mask_tensor ∧
    out !! "deformation" = Some deformation ∧
    shape deformation = [1; 2; 2; 2] ∧
    ∀ b i j c, b < 1 → i < 2 → j < 2 → c < 2 →
      get deformation [b; i; j; c] =
        sum_upto 2
          (λ k, (get mask_tensor [b; k; i; j] * get sparse_motion [b; k; i; j; c])%R).
Proof.
  split; [apply standin_valid_2x2|].
  apply (deformation_is_weighted_sum Standin.kp2gaussian (Standin.network 1 true 1)
           Standin.image_2x2 Standin.image_2x2 Standin.kp_centre Standin.kp_centre
           1 1 2 2).
  apply standin_valid_2x2.
Defined.

(** ** The heatmaps *)

(** C9: when [kp2gaussian] yields the Gaussian heatmaps of the driving and
    of the source keypoints at the resolution of the image,
    [create_heatmap_representations] returns a tensor of shape
    (batch, K+1, 1, H, W) whose channel 0 is zero everywhere and whose
    channel k, for k = 1..K, is the heatmap of driving keypoint k minus the
    heatmap of source keypoint k. *)
Theorem heatmap_is_gaussian_difference
    (kp2gaussian : dict → list nat → R → option tensor)
    self source_image kp_driving kp_source gaussian_driving gaussian_source
    bs C h w :
  shape source_image = [bs; C; h; w] →
  kp2gaussian kp_driving [h; w] (kp_variance self) = Some gaussian_driving →
  kp2gaussian kp_source [h; w] (kp_variance self) = Some gaussian_source →
  shape gaussian_driving = [bs; num_kp self; h; w] →
  shape gaussian_source = [bs; num_kp self; h; w] →
  ∃ heatmap,
    create_heatmap_representations kp2gaussian self source_image
      kp_driving kp_source = Some heatmap ∧
    shape heatmap = [bs; num_kp self + 1; 1; h; w] ∧
    (∀ b i j, b < bs → i < h → j < w → get heatmap [b; 0; 0; i; j] = 0%R) ∧
    (∀ b k i j, b < bs → 1 ≤ k ≤ num_kp self → i < h → j < w →
       get heatmap [b; k; 0; i; j] =
         (get gaussian_driving [b; (k - 1)%nat; i; j] -
          get gaussian_source [b; (k - 1)%nat; i; j])%R).
Proof.
  intros Hsrc Hgd Hgs Hgd_shape Hgs_shape.
  destruct (create_heatmap_representations_spec kp2gaussian self source_image
              kp_driving kp_source gaussian_driving gaussian_source bs C h w)
    as (hm & Hhm & Hhm_shape & _ & Hget); try done.
  exists hm. split; [done|]. split; [done|]. split.
  - intros b i j Hb Hi Hj. by rewrite (Hget b 0 i j) by lia.
  - intros b k i j Hb Hk Hi Hj. rewrite (Hget b k i j) by lia.
    destruct k as [|k]; [lia|]. by replace (S k - 1) with k by lia.
Qed.

Lemma standin_gaussian_2x2 :
  Standin.kp2gaussian Standin.kp_centre [2; 2] 0.01%R =
    Some (tabulate [1; 1; 2; 2]
            (λ idx, let dx := driving_offset (Tensor [1; 1; 2] [0%R; 0%R]) 2 2
                                (nth 0 idx 0) (nth 1 idx 0) (nth 2 idx 0) (nth 3 idx 0) 0 in
                    let dy := driving_offset (Tensor [1; 1; 2] [0%R; 0%R]) 2 2
                                (nth 0 idx 0) (nth 1 idx 0) (nth 2 idx 0) (nth 3 idx 0) 1 in
                    exp (-0.5 * (dx * dx + dy * dy) / 0.01))).
Proof. reflexivity. Qed.

Lemma heatmap_is_gaussian_difference_witness :
  ∃ gaussian,
    shape Standin.image_2x2 = [1; 1; 2; 2] ∧
    Standin.kp2gaussian Standin.kp_centre [2; 2]
      (kp_variance (Standin.network 1 false 1)) = Some gaussian ∧
    shape gaussian = [1; num_kp (Standin.network 1 false 1); 2; 2] ∧
    ∃ heatmap,
      create_heatmap_representations Standin.kp2gaussian (Standin.network 1 false 1)
        Standin.image_2x2 Standin.kp_centre Standin.kp_centre = Some heatmap ∧
      shape heatmap = [1; 2; 1; 2; 2] ∧
      (∀ b i j, b < 1 → i < 2 → j < 2 → get heatmap [b; 0; 0; i; j] = 0%R) ∧
      (∀ b k i j, b < 1 → 1 ≤ k ≤ 1 → i < 2 → j < 2 →
         get heatmap [b; k; 0; i; j] =
           (get gaussian [b; (k - 1)%nat; i; j] -
            get gaussian [b; (k - 1)%nat; i; j])%R).
Proof.
  eexists. split; [reflexivity|]. split; [exact standin_gaussian_2x2|].
  split; [reflexivity|].
  apply (heatmap_is_gaussian_difference Standin.kp2gaussian
           (Standin.network 1 false 1) Standin.image_2x2
           Standin.kp_centre Standin.kp_centre _ _ 1 1 2 2);
    first [reflexivity | exact standin_gaussian_2x2].
Defined.

(** ** Rounding to float32 *)

Lemma ln_2_pos : (0 < ln 2)%R.
Proof. pose proof ln_lt_2. lra. Qed.

Lemma ln_2_lt_1 : (ln 2 < 1)%R.
Proof.
  rewrite <-(ln_exp 1). apply ln_increasing; [lra|].
  pose proof (exp_ineq1 1). lra.
Qed.

Lemma pow2_exp z : powerRZ 2 z = exp (IZR z * ln 2).
Proof. rewrite powerRZ_Rpower by lra. done. Qed.

Lemma pow2_pos z : (0 < powerRZ 2 z)%R.
Proof. apply powerRZ_lt. lra. Qed.

Lemma pow2_le a b : (a ≤ b)%Z → (powerRZ 2 a <= powerRZ 2 b)%R.
Proof.
  intros H. rewrite !pow2_exp. apply IZR_le in H. pose proof ln_2_pos.
  destruct (Req_dec (IZR a) (IZR b)) as [->|Hne]; [lra|].
  apply Rlt_le, exp_increasing. nra.
Qed.

Lemma pow2_lt_inv a b : (powerRZ 2 a < powerRZ 2 b)%R → (a < b)%Z.
Proof.
  intros H. destruct (Z_lt_le_dec a b) as [|Hle]; [done|].
  apply pow2_le in Hle. lra.
Qed.

Lemma pow2_sub a b : powerRZ 2 (a - b) = (powerRZ 2 a / powerRZ 2 b)%R.
Proof.
  replace (a - b)%Z with (a + - b)%Z by lia.
  rewrite powerRZ_add, powerRZ_neg' by lra. done.
Qed.

Lemma pow2_IZR k : (0 ≤ k)%Z → powerRZ 2 k = IZR (2 ^ k).
Proof.
  intros Hk. rewrite <-(Z2Nat.id k) by done.
  rewrite <-pow_powerRZ, pow_IZR. done.
Qed.

(** [exponent32 x] is the binary exponent of a positive [x]. *)
Lemma exponent32_bounds x :
  (0 < x)%R → (powerRZ 2 (exponent32 x) <= x < powerRZ 2 (exponent32 x + 1))%R.
Proof.
  intros Hx. unfold exponent32. rewrite Rabs_pos_eq by lra.
  pose proof ln_2_pos as H2.
  destruct (Zfloor_bound (ln x / ln 2)) as [Hlo Hhi].
  set (m := Zfloor (ln x / ln 2)) in *.
  assert (Hlo' : (IZR m * ln 2 <= ln x)%R).
  { apply (Rmult_le_compat_r (ln 2)) in Hlo; [|lra].
    replace (ln x / ln 2 * ln 2)%R with (ln x) in Hlo by (field; lra). done. }
  assert (Hhi' : (ln x < IZR (m + 1) * ln 2)%R).
  { rewrite plus_IZR. apply (Rmult_lt_compat_r (ln 2)) in Hhi; [|lra].
    replace (ln x / ln 2 * ln 2)%R with (ln x) in Hhi by (field; lra). done. }
  rewrite !pow2_exp. split.
  - rewrite <-(exp_ln x) at 1 by done.
    destruct Hlo' as [Hlt|Heq]; [by apply Rlt_le, exp_increasing|rewrite Heq; lra].
  - rewrite <-(exp_ln x) at 1 by done. by apply exp_increasing.
Qed.

Lemma exponent32_lt x k : (0 < x < powerRZ 2 k)%R → (exponent32 x < k)%Z.
Proof.
  intros [Hx Hk]. apply pow2_lt_inv.
  pose proof (exponent32_bounds x Hx). lra.
Qed.

Lemma exponent32_ge x k : (powerRZ 2 k <= x)%R → (k ≤ exponent32 x)%Z.
Proof.
  intros Hk. pose proof (pow2_pos k).
  assert (Hx : (0 < x)%R) by lra.
  pose proof (exponent32_bounds x Hx) as [_ Hhi].
  assert (k < exponent32 x + 1)%Z by (apply pow2_lt_inv; lra). lia.
Qed.


Lemma nearest_even_ge q n : (IZR n <= q)%R → (n ≤ nearest_even q)%Z.
Proof.
  intros Hq. unfold nearest_even.
  pose proof (Zfloor_lub n q Hq).
  destruct (Rlt_dec _ _); [done|].
  destruct (Rlt_dec _ _); [lia|]. destruct (Z.even _); lia.
Qed.

Lemma nearest_even_floor q n :
  (IZR n <= q < IZR n + 1 / 2)%R → nearest_even q = n.
Proof.
  intros Hq. unfold nearest_even.
  rewrite (Zfloor_eq n q) by lra.
  destruct (Rlt_dec _ _); [done|lra].
Qed.





Lemma round32_ge_pow2 x k :
  (0 ≤ k)%Z → (powerRZ 2 k <= x)%R → (powerRZ 2 k <= round32 x)%R.
Proof.
  intros Hk Hx. pose proof (pow2_pos k).
  pose proof (exponent32_ge x k Hx) as He.
  pose proof (exponent32_bounds x ltac:(lra)) as [Hlo _].
  unfold round32, ulp32. rewrite Z.max_l by lia.
  set (e := exponent32 x) in *.
  pose proof (pow2_pos (e - 23)) as Hc.
  assert (Hn : (2 ^ 23 ≤ nearest_even (x / powerRZ 2 (e - 23)))%Z).
  { apply nearest_even_ge. rewrite <-pow2_IZR by lia.
    replace 23%Z with (e - (e - 23))%Z at 1 by lia. rewrite pow2_sub.
    apply Rmult_le_compat_r; [|done]. apply Rlt_le, Rinv_0_lt_compat. done. }
  apply IZR_le in Hn. rewrite <-pow2_IZR in Hn by lia.
  apply (Rmult_le_compat_r (powerRZ 2 (e - 23))) in Hn; [|lra].
  replace (powerRZ 2 23 * powerRZ 2 (e - 23))%R with (powerRZ 2 e) in Hn.
  2:{ rewrite <-powerRZ_add by lra. f_equal. lia. }
  pose proof (pow2_le k e He). lra.
Qed.





Lemma pow2_lt_exp x k : (0 < k)%Z → (IZR k <= x)%R → (powerRZ 2 k < exp x)%R.
Proof.
  intros Hk Hx. rewrite pow2_exp. apply exp_increasing.
  apply IZR_lt in Hk. pose proof ln_2_lt_1. pose proof ln_2_pos. nra.
Qed.


(** Down to a logit of -128, [exp (-x)] overflows and the sigmoid is
    exactly 0. *)
Lemma sigmoid32_saturates_low x : (x <= -128)%R → sigmoid32 x = 0%R.
Proof.
  intros Hx. unfold sigmoid32.
  assert (Hexp : (powerRZ 2 128 <= exp (- x))%R)
    by (apply Rlt_le, pow2_lt_exp; [lia|lra]).
  pose proof (round32_ge_pow2 _ 128 ltac:(lia) Hexp).
  destruct (Rle_dec _ _); [done|lra].
Qed.

(** ** Rounding of a sum in float32 *)

Lemma exponent32_eq x e :
  (powerRZ 2 e <= Rabs x < powerRZ 2 (e + 1))%R → exponent32 x = e.
Proof.
  intros [Hlo Hhi]. pose proof (pow2_pos e).
  assert (Habs : exponent32 x = exponent32 (Rabs x))
    by (unfold exponent32; by rewrite Rabs_Rabsolu).
  rewrite Habs.
  pose proof (exponent32_ge _ _ Hlo).
  assert (exponent32 (Rabs x) < e + 1)%Z by (apply exponent32_lt; lra).
  lia.
Qed.

Lemma pow2_neg k : (0 ≤ k)%Z → powerRZ 2 (- k) = (/ IZR (2 ^ k))%R.
Proof. intros. by rewrite powerRZ_neg', pow2_IZR. Qed.

Lemma nearest_even_up q n :
  (IZR n + 1 / 2 < q < IZR n + 1)%R → nearest_even q = (n + 1)%Z.
Proof.
  intros Hq. unfold nearest_even.
  rewrite (Zfloor_eq n q) by lra.
  destruct (Rlt_dec _ _); [lra|]. destruct (Rlt_dec _ _); [done|lra].
Qed.

Lemma nearest_even_tie q n :
  q = (IZR n + 1 / 2)%R → nearest_even q = if Z.even n then n else (n + 1)%Z.
Proof.
  intros ->. unfold nearest_even.
  rewrite (Zfloor_eq n) by lra.
  destruct (Rlt_dec _ _); [lra|]. destruct (Rlt_dec _ _); [lra|done].
Qed.

(** The value of a rounding, from the exponent of the number and the
    nearest multiple of the unit in the last place. *)
Lemma round32_eq x e n :
  (-126 ≤ e)%Z →
  (powerRZ 2 e <= Rabs x < powerRZ 2 (e + 1))%R →
  nearest_even (x / powerRZ 2 (e - 23)) = n →
  round32 x = (IZR n * powerRZ 2 (e - 23))%R.
Proof.
  intros He Hx Hn. unfold round32, ulp32.
  rewrite (exponent32_eq x e Hx), Z.max_l by lia. by rewrite Hn.
Qed.

Lemma pow2_Zneg p : powerRZ 2 (Z.neg p) = (/ IZR (2 ^ Z.pos p))%R.
Proof. change (Z.neg p) with (- Z.pos p)%Z. by apply pow2_neg. Qed.

Lemma pow2_Zpos p : powerRZ 2 (Z.pos p) = IZR (2 ^ Z.pos p).
Proof. by apply pow2_IZR. Qed.

(** Powers of two with closed exponents, as quotients of integers. *)
Ltac pow2_tac :=
  repeat match goal with
  | |- context [powerRZ 2 ?z] =>
      let v := eval vm_compute in z in
      match v with
      | Z.neg ?p =>
          change (powerRZ 2 z) with (powerRZ 2 (Z.neg p)); rewrite (pow2_Zneg p)
      | Z.pos ?p =>
          change (powerRZ 2 z) with (powerRZ 2 (Z.pos p)); rewrite (pow2_Zpos p)
      | Z0 => change (powerRZ 2 z) with (powerRZ 2 0); rewrite powerRZ_O
      end
  end;
  repeat match goal with
  | |- context [(2 ^ ?k)%Z] =>
      let v := eval vm_compute in (2 ^ k)%Z in change (2 ^ k)%Z with v
  end.

Lemma float32_three_tenths : round32 (3 / 10) = (IZR 10066330 * powerRZ 2 (-25))%R.
Proof.
  apply (round32_eq _ (-2)); [lia| |].
  - rewrite Rabs_pos_eq by lra. pow2_tac. lra.
  - pow2_tac.
    apply (nearest_even_up _ 10066329). lra.
Qed.

(** In [float32] the sum [(z - kp) + kp] need not be [z]: at [z = -1] and
    [kp = 0.3] it is [-1 + 2^(-24)], the neighbour of -1. *)
Lemma float32_cancellation :
  let kp := round32 (3 / 10) in
  round32 (round32 (-1 - kp) + kp) = (-1 + powerRZ 2 (-24))%R.
Proof.
  intros kp. unfold kp. rewrite float32_three_tenths.
  assert (Hdiff : round32 (-1 - IZR 10066330 * powerRZ 2 (-25)) =
                  (IZR (-10905190) * powerRZ 2 (-23))%R).
  { apply (round32_eq _ 0); [lia| |].
    - rewrite Rabs_left by (pow2_tac; lra).
      pow2_tac. lra.
    - pow2_tac.
      rewrite (nearest_even_tie _ (-10905191)); [done|]. lra. }
  rewrite Hdiff.
  rewrite (round32_eq _ (-1) (-16777215)); [|lia| |].
  - pow2_tac. lra.
  - rewrite Rabs_left by (pow2_tac; lra).
    pow2_tac. lra.
  - pow2_tac.
    apply nearest_even_floor. lra.
Qed.

(** ** The occlusion map *)







(** ** Working at a reduced scale *)

(** C10: a network constructed with a scale factor different from 1 first
    downsamples the source image with its anti-aliasing layer, and every
    tensor of the returned record ([sparse_deformed], [mask],
    [deformation], and [occlusion_map] when present) has the height and
    width of the downsampled image. *)
Theorem outputs_at_downsampled_resolution Hourglass weights Conv2D
    AntiAliasInterpolation2d kp2gaussian (mask_weights occlusion_weights : weights)
    block_expansion num_blocks max_features num_kp num_channels
    (estimate_occlusion_map : bool) scale_factor kp_variance
    source_image image kp_driving kp_source bs h w :
  Qeq_bool scale_factor 1 = false →
  valid_call kp2gaussian
    (init Hourglass weights Conv2D AntiAliasInterpolation2d
          mask_weights occlusion_weights block_expansion num_blocks max_features
          num_kp num_channels estimate_occlusion_map scale_factor kp_variance)
    source_image image kp_driving kp_source bs num_channels h w →
  image = AntiAliasInterpolation2d num_channels scale_factor source_image ∧
  shape (AntiAliasInterpolation2d num_channels scale_factor source_image) =
    [bs; num_channels; h; w] ∧
  ∃ out sparse_deformed mask_tensor deformation,
    forward kp2gaussian
      (init Hourglass weights Conv2D AntiAliasInterpolation2d
            mask_weights occlusion_weights block_expansion num_blocks max_features
            num_kp num_channels estimate_occlusion_map scale_factor kp_variance)
      source_image kp_driving kp_source = Some out ∧
    out !! "sparse_deformed" = Some sparse_deformed ∧
    out !! "mask" = Some mask_tensor ∧
    out !! "deformation" = Some deformation ∧
    shape sparse_deformed = [bs; num_kp + 1; num_channels; h; w] ∧
    shape mask_tensor = [bs; num_kp + 1; h; w] ∧
    shape deformation = [bs; h; w; 2] ∧
    ∀ occlusion_map, out !! "occlusion_map" = Some occlusion_map →
      shape occlusion_map = [bs; 1; h; w].
Proof.
  intros Hscale Hvalid.
  assert (Himage : image = AntiAliasInterpolation2d num_channels scale_factor
                             source_image).
  { destruct Hvalid as (_ & Himage & _). unfold scaled_image in Himage.
    cbn in Himage. rewrite Hscale in Himage. cbn in Himage. congruence. }
  split; [done|]. split; [rewrite <-Himage; apply Hvalid|].
  destruct (forward_valid _ _ _ _ _ _ _ _ _ _ Hvalid)
    as (sm & ds & pred & m & def & _ & _ & Hfw & (filters & Hpred & _ & Hocc) &
        Hds & Hm & Hdef & _).
  destruct (output_record_lookup
              (init Hourglass weights Conv2D AntiAliasInterpolation2d
                    mask_weights occlusion_weights block_expansion num_blocks
                    max_features num_kp num_channels estimate_occlusion_map
                    scale_factor kp_variance) ds m def pred)
    as (Hl1 & Hl2 & Hl3 & Hl4).
  eexists _, ds, m, def. split; [exact Hfw|].
  do 6 (split; [done|]).
  intros occ Hsome. rewrite Hl4 in Hsome.
  apply fmap_Some in Hsome as (occlusion_layer & Hlayer & ->).
  exact (Hocc _ Hlayer _ _ _ _ Hpred).
Qed.

Lemma standin_valid_4x4 :
  valid_call Standin.kp2gaussian (Standin.network 1 true (1 # 2))
    Standin.image_4x4
    (Standin.AntiAliasInterpolation2d 1 (1 # 2) Standin.image_4x4)
    Standin.kp_centre Standin.kp_centre 1 1 2 2.
Proof.
  split; [apply standin_network_ok|].
  split; [done|]. split; [done|]. split; [cbn; lia|].
  split; [by apply standin_keypoints_ok|].
  split; [by apply standin_keypoints_ok|].
  split; [by exists NoJacobian|].
  split; by apply standin_gaussian_ok.
Qed.

Lemma outputs_at_downsampled_resolution_witness :
  Qeq_bool (1 # 2) 1 = false ∧
  shape Standin.image_4x4 = [1; 1; 4; 4] ∧
  shape (Standin.AntiAliasInterpolation2d 1 (1 # 2) Standin.image_4x4) =
    [1; 1; 2; 2] ∧
  ∃ out sparse_deformed mask_tensor deformation,
    forward Standin.kp2gaussian (Standin.network 1 true (1 # 2))
      Standin.image_4x4 Standin.kp_centre Standin.kp_centre = Some out ∧
    out !! "sparse_deformed" = Some sparse_deformed ∧
    out !! "mask" = Some mask_tensor ∧
    out !! "deformation" = Some deformation ∧
    shape sparse_deformed = [1; 2; 1; 2; 2] ∧
    shape mask_tensor = [1; 2; 2; 2] ∧
    shape deformation = [1; 2; 2; 2] ∧
    ∀ occlusion_map, out !! "occlusion_map" = Some occlusion_map →
      shape occlusion_map = [1; 1; 2; 2].
Proof.
  split; [reflexivity|]. split; [reflexivity|].
  apply (outputs_at_downsampled_resolution Standin.Hourglass R Standin.Conv2D
           Standin.AntiAliasInterpolation2d Standin.kp2gaussian 0%R 0%R
           4 1 8 1 1 true (1 # 2) 0.01%R Standin.image_4x4
           (Standin.AntiAliasInterpolation2d 1 (1 # 2) Standin.image_4x4)
           Standin.kp_centre Standin.kp_centre 1 2 2);
    [reflexivity|apply standin_valid_4x4].
Defined.

(** ** The background entry of the sparse motions *)

(** C4: whatever the keypoint dictionaries hold, entry 0 of a sparse motion
    stack returned by [create_sparse_motions] is the identity coordinate
    grid, repeated for every element of the batch. *)
Theorem background_motion_is_identity_grid self source_image kp_driving kp_source
    sparse_motions bs C h w :
  shape source_image = [bs; C; h; w] →
  create_sparse_motions self source_image kp_driving kp_source =
    Some sparse_motions →
  ∃ identity_grid,
    make_coordinate_grid h w = Some identity_grid ∧
    shape identity_grid = [h; w; 2] ∧
    ∀ b i j c, b < bs → i < h → j < w → c < 2 →
      get sparse_motions [b; 0; i; j; c] = get identity_grid [i; j; c].
Proof.
  intros Hsrc H. unfold create_sparse_motions in H. rewrite Hsrc in H.
  cbn [mbind option_bind unpack4] in H.
  apply bind_Some in H as (grid & Hgrid & H).
  exists grid. split; [done|].
  assert (0 < h ∧ 0 < w) as [Hh Hw].
  { unfold make_coordinate_grid in Hgrid.
    destruct (decide (0 < h ∧ 0 < w)); [done|].
    by rewrite option_guard_False in Hgrid. }
  rewrite make_coordinate_grid_Some in Hgrid by done.
  assert (Hgrid_shape : shape grid = [h; w; 2]) by (by injection Hgrid as <-).
  clear Hgrid. split; [done|].
  apply bind_Some in H as (grid1 & Hgrid1 & H).
  unfold Z_of_shape in Hgrid1. cbn [fmap list_fmap] in Hgrid1.
  rewrite (reshape_Some _ [1; 1; h; w; 2]) in Hgrid1; [|reshape_tac..].
  injection Hgrid1 as <-.
  do 7 (apply bind_Some in H as (? & _ & H)).
  unfold concat in H. cbn [shape] in H.
  apply bind_Some in H as (_ & _ & H).
  apply bind_Some in H as (_ & _ & H).
  injection H as <-.
  intros b i j c Hb Hi Hj Hc.
  rewrite !Nat.mul_1_r, !Nat.mul_1_l.
  rewrite get_tabulate by in_range_tac. cbn [nth].
  rewrite decide_True by lia.
  rewrite tile_same_rank by reflexivity. cbn [shape zip_with].
  rewrite get_tabulate by (rewrite !Nat.mul_1_r, !Nat.mul_1_l; in_range_tac).
  cbn [zip_with].
  rewrite !Nat.mod_1_r, (Nat.mod_small i), (Nat.mod_small j), (Nat.mod_small c)
    by done.
  apply get_data. ravel_tac.
Qed.

Lemma standin_jacobians_identity :
  jacobians_ok Standin.kp_identity Standin.kp_identity 1 1
    (Jacobians (Tensor [1; 1; 2; 2] [1%R; 0%R; 0%R; 1%R])
               (Tensor [1; 1; 2; 2] [1%R; 0%R; 0%R; 1%R])).
Proof.
  split; [done|]. split; [done|]. split; [done|]. split; [done|].
  intros b k Hb Hk. replace b with 0 by lia. replace k with 0 by lia.
  unfold det2, entry2, get. cbv -[Rminus Rmult Rplus IZR]. lra.
Qed.

Lemma standin_sparse_motions_identity :
  ∃ sparse_motions,
    create_sparse_motions (Standin.network 1 false 1) Standin.image_2x2
      Standin.kp_identity Standin.kp_identity = Some sparse_motions.
Proof.
  destruct (create_sparse_motions_spec (Standin.network 1 false 1)
              Standin.image_2x2 Standin.kp_identity Standin.kp_identity
              (Tensor [1; 1; 2] [0%R; 0%R]) (Tensor [1; 1; 2] [0%R; 0%R])
              1 1 2 2) with (J := Jacobians (Tensor [1; 1; 2; 2] [1%R; 0%R; 0%R; 1%R])
                                          (Tensor [1; 1; 2; 2] [1%R; 0%R; 0%R; 1%R]))
    as (sm & Hsm & _); try done; [cbn; lia|apply standin_jacobians_identity|].
  by exists sm.
Qed.

Lemma background_motion_is_identity_grid_witness :
  ∃ sparse_motions,
    shape Standin.image_2x2 = [1; 1; 2; 2] ∧
    create_sparse_motions (Standin.network 1 false 1) Standin.image_2x2
      Standin.kp_identity Standin.kp_identity = Some sparse_motions ∧
    ∃ identity_grid,
      make_coordinate_grid 2 2 = Some identity_grid ∧
      shape identity_grid = [2; 2; 2] ∧
      ∀ b i j c, b < 1 → i < 2 → j < 2 → c < 2 →
        get sparse_motions [b; 0; i; j; c] = get identity_grid [i; j; c].
Proof.
  destruct standin_sparse_motions_identity as (sm & Hsm).
  exists sm. split; [reflexivity|]. split; [exact Hsm|].
  apply (background_motion_is_identity_grid (Standin.network 1 false 1)
           Standin.image_2x2 Standin.kp_identity Standin.kp_identity sm 1 1 2 2);
    [reflexivity|exact Hsm].
Defined.

(** ** Identity jacobians *)

Lemma in_range_5 idx a b c d e :
  in_range idx [a; b; c; d; e] →
  ∃ i1 i2 i3 i4 i5,
    idx = [i1; i2; i3; i4; i5] ∧ i1 < a ∧ i2 < b ∧ i3 < c ∧ i4 < d ∧ i5 < e.
Proof.
  intros H. destruct idx as [|i1 [|i2 [|i3 [|i4 [|i5 [|]]]]]];
    try (apply in_range_length in H; done).
  repeat (apply in_range_cons in H as [? H]).
  exists i1, i2, i3, i4, i5. repeat split; done.
Qed.

Lemma sum_upto_2 f : sum_upto 2 f = (f 0%nat + f 1%nat)%R.
Proof. unfold sum_upto. cbn [seq fmap list_fmap foldr]. lra. Qed.

Lemma det2_identity jacobian bs K b k :
  is_identity_jacobian jacobian bs K → b < bs → k < K →
  det2 jacobian [b; k] = 1%R.
Proof.
  intros [_ Hid] Hb Hk. unfold det2, entry2. cbn [app].
  rewrite !Hid by lia. repeat case_decide; try lia; lra.
Qed.

(** With identity matrices on both sides the affine correction leaves
    every offset as it is. *)
Lemma jacobian_entry_identity jacobian_source jacobian_driving bs K b k c
    (x : nat → R) :
  is_identity_jacobian jacobian_source bs K →
  is_identity_jacobian jacobian_driving bs K →
  b < bs → k < K → c < 2 →
  sum_upto 2 (λ l, (jacobian_entry jacobian_source jacobian_driving b k c l * x l)%R)
    = x c.
Proof.
  intros Hs Hd Hb Hk Hc.
  pose proof (det2_identity _ _ _ b k Hd Hb Hk) as Hdet.
  destruct Hs as [_ Hs], Hd as [_ Hd].
  unfold jacobian_entry. rewrite !sum_upto_2.
  unfold inverse2. rewrite Hdet. unfold entry2. cbn [app].
  rewrite !Hs, !Hd by lia.
  destruct c as [|[|c]]; [| |lia]; repeat case_decide; try lia; lra.
Qed.

(** C6: when both keypoint sets carry the 2x2 identity matrix as the
    jacobian of every keypoint, [create_sparse_motions] returns the very
    tensor it returns for the same keypoints without jacobians. *)
Theorem identity_jacobian_is_noop self source_image kp_driving kp_source
    jacobian_driving jacobian_source bs C h w :
  shape source_image = [bs; C; h; w] →
  0 < bs ∧ 0 < num_kp self ∧ 0 < h ∧ 0 < w →
  keypoints_ok kp_driving bs (num_kp self) →
  keypoints_ok kp_source bs (num_kp self) →
  kp_driving !! "jacobian" = Some jacobian_driving →
  kp_source !! "jacobian" = Some jacobian_source →
  is_identity_jacobian jacobian_driving bs (num_kp self) →
  is_identity_jacobian jacobian_source bs (num_kp self) →
  ∃ sparse_motions,
    create_sparse_motions self source_image kp_driving kp_source =
      Some sparse_motions ∧
    create_sparse_motions self source_image
      (delete "jacobian" kp_driving) (delete "jacobian" kp_source) =
      Some sparse_motions.
Proof.
  intros Hsrc Hpos (vd & Hvd & Hvd_shape) (vs & Hvs & Hvs_shape) Hjd Hjs Hd Hs.
  destruct (create_sparse_motions_spec self source_image kp_driving kp_source
              vd vs bs C h w) with (J := Jacobians jacobian_source jacobian_driving)
    as (sm & Hsm & Hsm_shape & Hsm_wf & Hsm_get); try done.
  { split; [done|]. split; [done|]. split; [apply Hd|]. split; [apply Hs|].
    intros b k Hb Hk. rewrite (det2_identity _ _ _ b k Hd) by done. lra. }
  destruct (create_sparse_motions_spec self source_image
              (delete "jacobian" kp_driving) (delete "jacobian" kp_source)
              vd vs bs C h w) with (J := NoJacobian)
    as (sm' & Hsm' & Hsm'_shape & Hsm'_wf & Hsm'_get); try done.
  { by rewrite lookup_delete_ne. }
  { by rewrite lookup_delete_ne. }
  { apply lookup_delete_eq. }
  exists sm. split; [done|]. rewrite Hsm'. f_equal.
  apply tensor_ext; [done|done|congruence|].
  intros idx Hidx. rewrite Hsm'_shape in Hidx.
  apply in_range_5 in Hidx as (b & k & i & j & c & -> & Hb & Hk & Hi & Hj & Hc).
  rewrite Hsm_get, Hsm'_get by done.
  destruct k as [|k]; [done|]. cbn [keypoint_motion]. f_equal. symmetry.
  apply (jacobian_entry_identity _ _ bs (num_kp self) b k c
           (λ l, driving_offset vd h w b k i j l)); try done; lia.
Qed.

Lemma standin_is_identity_jacobian :
  is_identity_jacobian (Tensor [1; 1; 2; 2] [1%R; 0%R; 0%R; 1%R]) 1 1.
Proof.
  split; [done|]. intros b k r c Hb Hk Hr Hc.
  replace b with 0 by lia. replace k with 0 by lia.
  destruct r as [|[|r]]; [| |lia]; destruct c as [|[|c]]; try lia; reflexivity.
Qed.

Lemma identity_jacobian_is_noop_witness :
  (shape Standin.image_2x2 = [1; 1; 2; 2] ∧
   keypoints_ok Standin.kp_identity 1 1 ∧
   Standin.kp_identity !! "jacobian" =
     Some (Tensor [1; 1; 2; 2] [1%R; 0%R; 0%R; 1%R]) ∧
   is_identity_jacobian (Tensor [1; 1; 2; 2] [1%R; 0%R; 0%R; 1%R]) 1 1) ∧
  ∃ sparse_motions,
    create_sparse_motions (Standin.network 1 false 1) Standin.image_2x2
      Standin.kp_identity Standin.kp_identity = Some sparse_motions ∧
    create_sparse_motions (Standin.network 1 false 1) Standin.image_2x2
      (delete "jacobian" Standin.kp_identity)
      (delete "jacobian" Standin.kp_identity) = Some sparse_motions.
Proof.
  split.
  { split; [reflexivity|]. split; [by apply standin_keypoints_ok|].
    split; [reflexivity|apply standin_is_identity_jacobian]. }
  apply (identity_jacobian_is_noop (Standin.network 1 false 1) Standin.image_2x2
           Standin.kp_identity Standin.kp_identity
           (Tensor [1; 1; 2; 2] [1%R; 0%R; 0%R; 1%R])
           (Tensor [1; 1; 2; 2] [1%R; 0%R; 0%R; 1%R]) 1 1 2 2);
    first [ reflexivity
          | by apply standin_keypoints_ok
          | apply standin_is_identity_jacobian
          | cbn; lia ].
Defined.

(** ** Batches of more than one image *)

(** The deformed source stack of a batch of [bs] images: entry [(b, k)] is
    sampled from image [(b * (K+1) + k) mod bs] of the batch, at the
    coordinates of motion field [(b, k)]. *)
Lemma deformed_source_entry self source_image sparse_motions bs C h w :
  shape source_image = [bs; C; h; w] →
  shape sparse_motions = [bs; num_kp self + 1; h; w; 2] →
  0 < bs ∧ 0 < C ∧ 0 < h ∧ 0 < w →
  ∃ deformed,
    create_deformed_source_image self source_image sparse_motions = Some deformed ∧
    shape deformed = [bs; num_kp self + 1; C; h; w] ∧
    ∀ b k c i j, b < bs → k < num_kp self + 1 → c < C → i < h → j < w →
      get deformed [b; k; c; i; j] =
        bilinear_sample
          (plane source_image ((b * (num_kp self + 1) + k) mod bs) c) h w
          (get sparse_motions [b; k; i; j; 0])
          (get sparse_motions [b; k; i; j; 1]).
Proof.
  intros Hsrc Hsm Hpos.
  destruct (create_deformed_source_image_spec self source_image sparse_motions
              bs C h w Hsrc Hsm Hpos) as (out & Hout & Hshape & _ & Hget).
  by exists out.
Qed.

(** C1, on a batch of two one-pixel images of values 1 and 2 with one
    keypoint: entry (0, 1) of the deformed source stack is sampled from
    image 1 of the batch and is 2, whereas image 0 sampled at the
    coordinates of motion field (0, 1) is 1. *)
Theorem deformed_source_mixes_batch_elements :
  ∃ deformed,
    create_deformed_source_image (Standin.network 1 false 1)
      Standin.images_1x1 Standin.motions_1x1 = Some deformed ∧
    get deformed [0; 1; 0; 0; 0] = 2%R ∧
    bilinear_sample (plane Standin.images_1x1 0 0) 1 1
      (get Standin.motions_1x1 [0; 1; 0; 0; 0])
      (get Standin.motions_1x1 [0; 1; 0; 0; 1]) = 1%R ∧
    bilinear_sample (plane Standin.images_1x1 1 0) 1 1
      (get Standin.motions_1x1 [0; 1; 0; 0; 0])
      (get Standin.motions_1x1 [0; 1; 0; 0; 1]) = 2%R.
Proof.
  destruct (deformed_source_entry (Standin.network 1 false 1)
              Standin.images_1x1 Standin.motions_1x1 2 1 1 1)
    as (deformed & Hdeformed & _ & Hget); [done|done|lia|].
  exists deformed. split; [done|].
  rewrite (Hget 0 1 0 0 0) by (cbn; lia).
  rewrite !bilinear_sample_single.
  repeat split; reflexivity.
Qed.

(** ** Jacobians present on one keypoint set only *)

Ltac bind_None :=
  match goal with
  | |- (?x ≫= _) = None =>
      destruct x as [?|]; cbn [mbind option_bind]; [|done]
  end.

(** A jacobian on the driving keypoints alone: the lookup in the source
    keypoints raises. *)
Lemma create_sparse_motions_missing_source_jacobian self source_image
    kp_driving kp_source :
  is_Some (kp_driving !! "jacobian") → kp_source !! "jacobian" = None →
  create_sparse_motions self source_image kp_driving kp_source = None.
Proof.
  intros Hd Hs. unfold create_sparse_motions.
  destruct (unpack4 (shape source_image)) as [[[[bs c] h] w]|];
    cbn [mbind option_bind]; [|done].
  do 5 bind_None. rewrite decide_True by done.
  unfold apply_jacobian. rewrite Hs. done.
Qed.

(** A jacobian on the source keypoints alone is never read. *)
Lemma create_sparse_motions_ignores_source_jacobian self source_image
    kp_driving kp_source :
  kp_driving !! "jacobian" = None →
  create_sparse_motions self source_image kp_driving kp_source =
  create_sparse_motions self source_image kp_driving (delete "jacobian" kp_source).
Proof.
  intros Hd. unfold create_sparse_motions.
  rewrite (lookup_delete_ne kp_source "jacobian" "value") by done.
  destruct (decide (is_Some (kp_driving !! "jacobian"))) as [Hsome|Hnone].
  - rewrite Hd in Hsome. by destruct Hsome.
  - reflexivity.
Qed.

(** C2, as the code has it: a jacobian on [kp_driving] that is missing from
    [kp_source] makes the forward call fail; a jacobian on [kp_source]
    that is missing from [kp_driving] is ignored, and the sparse motions
    are those of the same keypoints without jacobians. *)
Theorem jacobian_presence_asymmetry kp2gaussian self source_image
    kp_driving kp_source :
  (is_Some (kp_driving !! "jacobian") → kp_source !! "jacobian" = None →
   forward kp2gaussian self source_image kp_driving kp_source = None) ∧
  (kp_driving !! "jacobian" = None →
   ∀ image,
     create_sparse_motions self image kp_driving kp_source =
     create_sparse_motions self image kp_driving (delete "jacobian" kp_source)).
Proof.
  split.
  - intros Hd Hs. unfold forward.
    destruct (if negb _ then _ else _) as [image|]; cbn [mbind option_bind]; [|done].
    destruct (unpack4 (shape image)) as [[[[bs c] h] w]|];
      cbn [mbind option_bind]; [|done].
    destruct (create_heatmap_representations _ _ _ _ _);
      cbn [mbind option_bind]; [|done].
    by rewrite create_sparse_motions_missing_source_jacobian.
  - intros Hd image. by apply create_sparse_motions_ignores_source_jacobian.
Qed.

Lemma jacobian_presence_asymmetry_witness :
  forward Standin.kp2gaussian (Standin.network 1 false 1) Standin.image_2x2
    Standin.kp_identity Standin.kp_centre = None ∧
  create_sparse_motions (Standin.network 1 false 1) Standin.image_2x2
    Standin.kp_centre Standin.kp_identity =
  create_sparse_motions (Standin.network 1 false 1) Standin.image_2x2
    Standin.kp_centre (delete "jacobian" Standin.kp_identity).
Proof.
  split.
  - apply (proj1 (jacobian_presence_asymmetry Standin.kp2gaussian
                    (Standin.network 1 false 1) Standin.image_2x2
                    Standin.kp_identity Standin.kp_centre));
      [by eexists|reflexivity].
  - apply (proj2 (jacobian_presence_asymmetry Standin.kp2gaussian
                    (Standin.network 1 false 1) Standin.image_2x2
                    Standin.kp_centre Standin.kp_identity)).
    reflexivity.
Defined.

Lemma standin_valid_source_jacobian_only :
  valid_call Standin.kp2gaussian (Standin.network 1 false 1)
    Standin.image_2x2 Standin.image_2x2 Standin.kp_centre Standin.kp_identity
    1 1 2 2.
Proof.
  split; [apply standin_network_ok|].
  split; [done|]. split; [done|]. split; [cbn; lia|].
  split; [by apply standin_keypoints_ok|].
  split; [by apply standin_keypoints_ok|].
  split; [by exists NoJacobian|].
  split; by apply standin_gaussian_ok.
Qed.

(** C2 fails in one direction: with a jacobian on the source keypoints and
    none on the driving keypoints the forward call returns a record. *)
Lemma source_only_jacobian_is_accepted :
  Standin.kp_centre !! "jacobian" = None ∧
  is_Some (Standin.kp_identity !! "jacobian") ∧
  is_Some (forward Standin.kp2gaussian (Standin.network 1 false 1)
             Standin.image_2x2 Standin.kp_centre Standin.kp_identity).
Proof.
  split; [reflexivity|]. split; [by eexists|].
  destruct (forward_valid _ _ _ _ _ _ _ _ _ _ standin_valid_source_jacobian_only)
    as (sm & ds & pred & m & def & _ & _ & Hfw & _).
  rewrite Hfw. by eexists.
Qed.

(** ** Identical keypoints *)



(** When the inversion of the driving jacobian fails, so does the call. *)
Lemma create_sparse_motions_singular self source_image kp_driving kp_source
    jacobian_driving :
  kp_driving !! "jacobian" = Some jacobian_driving →
  inverse jacobian_driving = None →
  create_sparse_motions self source_image kp_driving kp_source = None.
Proof.
  intros Hd Hinv. unfold create_sparse_motions.
  destruct (unpack4 (shape source_image)) as [[[[bs c] h] w]|];
    cbn [mbind option_bind]; [|done].
  do 5 bind_None. rewrite decide_True by (by rewrite Hd).
  assert (∀ coordinate_grid,
            apply_jacobian h w kp_driving kp_source coordinate_grid = None) as ->;
    [|done].
  intros coordinate_grid. unfold apply_jacobian.
  destruct (kp_source !! "jacobian"); cbn [mbind option_bind]; [|done].
  rewrite Hd. cbn [mbind option_bind]. by rewrite Hinv.
Qed.





(** * Further properties of the module *)

(** ** The motion field of a keypoint *)

(** Without jacobians on the driving keypoints, the motion field of
    keypoint [k] is the identity grid translated from the driving keypoint
    to the source keypoint: [z - kp_driving[k] + kp_source[k]]. *)
Theorem sparse_motion_without_jacobian self source_image kp_driving kp_source
    value_driving value_source bs C h w :
  shape source_image = [bs; C; h; w] →
  0 < bs ∧ 0 < num_kp self ∧ 0 < h ∧ 0 < w →
  kp_driving !! "value" = Some value_driving →
  kp_source !! "value" = Some value_source →
  shape value_driving = [bs; num_kp self; 2] →
  shape value_source = [bs; num_kp self; 2] →
  kp_driving !! "jacobian" = None →
  ∃ sparse_motions,
    create_sparse_motions self source_image kp_driving kp_source =
      Some sparse_motions ∧
    shape sparse_motions = [bs; num_kp self + 1; h; w; 2] ∧
    ∀ b k i j c, b < bs → k < num_kp self → i < h → j < w → c < 2 →
      get sparse_motions [b; S k; i; j; c] =
        (grid_value h w i j c - get value_driving [b; k; c] +
         get value_source [b; k; c])%R.
Proof.
  intros Hsrc Hpos Hvd Hvs Hvd_shape Hvs_shape Hjac.
  destruct (create_sparse_motions_spec self source_image kp_driving kp_source
              value_driving value_source bs C h w) with (J := NoJacobian)
    as (sm & Hsm & Hsm_shape & _ & Hget); try done.
  exists sm. split; [done|]. split; [done|].
  intros b k i j c Hb Hk Hi Hj Hc. by rewrite Hget by (done || lia).
Qed.

Lemma sparse_motion_without_jacobian_witness :
  (shape Standin.image_2x2 = [1; 1; 2; 2] ∧
   Standin.kp_centre !! "value" = Some Standin.value_centre ∧
   Standin.kp_corner !! "value" = Some Standin.value_corner ∧
   Standin.kp_centre !! "jacobian" = None) ∧
  ∃ sparse_motions,
    create_sparse_motions (Standin.network 1 false 1) Standin.image_2x2
      Standin.kp_centre Standin.kp_corner = Some sparse_motions ∧
    shape sparse_motions = [1; 2; 2; 2; 2] ∧
    ∀ b k i j c, b < 1 → k < 1 → i < 2 → j < 2 → c < 2 →
      get sparse_motions [b; S k; i; j; c] =
        (grid_value 2 2 i j c - get Standin.value_centre [b; k; c] +
         get Standin.value_corner [b; k; c])%R.
Proof.
  split; [repeat split; reflexivity|].
  apply (sparse_motion_without_jacobian (Standin.network 1 false 1)
           Standin.image_2x2 Standin.kp_centre Standin.kp_corner
           Standin.value_centre Standin.value_corner
           1 1 2 2);
    first [reflexivity | cbn; lia].
Defined.





(** ** The deformed source stack *)

(** Entry [(b, k)] of the deformed source stack is sampled, channel by
    channel, from image [(b * (K+1) + k) mod bs] of the batch at the
    coordinates of motion field [(b, k)]. *)
Theorem deformed_source_samples_image self source_image sparse_motions bs C h w :
  shape source_image = [bs; C; h; w] →
  shape sparse_motions = [bs; num_kp self + 1; h; w; 2] →
  0 < bs ∧ 0 < C ∧ 0 < h ∧ 0 < w →
  ∃ deformed,
    create_deformed_source_image self source_image sparse_motions = Some deformed ∧
    shape deformed = [bs; num_kp self + 1; C; h; w] ∧
    ∀ b k c i j, b < bs → k < num_kp self + 1 → c < C → i < h → j < w →
      get deformed [b; k; c; i; j] =
        bilinear_sample
          (plane source_image ((b * (num_kp self + 1) + k) mod bs) c) h w
          (get sparse_motions [b; k; i; j; 0])
          (get sparse_motions [b; k; i; j; 1]).
Proof.
  intros Hsrc Hsm Hpos.
  destruct (create_deformed_source_image_spec self source_image sparse_motions
              bs C h w Hsrc Hsm Hpos) as (out & Hout & Hshape & _ & Hget).
  by exists out.
Qed.

Lemma deformed_source_samples_image_witness :
  (shape Standin.images_1x1 = [2; 1; 1; 1] ∧
   shape Standin.motions_1x1 = [2; 2; 1; 1; 2]) ∧
  ∃ deformed,
    create_deformed_source_image (Standin.network 1 false 1)
      Standin.images_1x1 Standin.motions_1x1 = Some deformed ∧
    shape deformed = [2; 2; 1; 1; 1] ∧
    ∀ b k c i j, b < 2 → k < 2 → c < 1 → i < 1 → j < 1 →
      get deformed [b; k; c; i; j] =
        bilinear_sample (plane Standin.images_1x1 ((b * 2 + k) mod 2) c) 1 1
          (get Standin.motions_1x1 [b; k; i; j; 0])
          (get Standin.motions_1x1 [b; k; i; j; 1]).
Proof.
  split; [split; reflexivity|].
  apply (deformed_source_samples_image (Standin.network 1 false 1)
           Standin.images_1x1 Standin.motions_1x1 2 1 1 1);
    first [reflexivity | lia].
Defined.

Lemma deformed_source_single self source_image sparse_motions C h w :
  shape source_image = [1; C; h; w] →
  shape sparse_motions = [1; num_kp self + 1; h; w; 2] →
  0 < C ∧ 0 < h ∧ 0 < w →
  ∃ deformed,
    create_deformed_source_image self source_image sparse_motions = Some deformed ∧
    shape deformed = [1; num_kp self + 1; C; h; w] ∧
    ∀ k c i j, k < num_kp self + 1 → c < C → i < h → j < w →
      get deformed [0; k; c; i; j] =
        bilinear_sample (plane source_image 0 c) h w
          (get sparse_motions [0; k; i; j; 0])
          (get sparse_motions [0; k; i; j; 1]).
Proof.
  intros Hsrc Hsm Hpos.
  destruct (create_deformed_source_image_spec self source_image sparse_motions
              1 C h w Hsrc Hsm) as (out & Hout & Hshape & _ & Hget); [lia|].
  exists out. split; [done|]. split; [done|].
  intros k c i j Hk Hc Hi Hj. rewrite Hget by (done || lia).
  by rewrite Nat.mod_1_r.
Qed.

(** For a batch of one image, entry [k] of the deformed source stack is the
    image sampled at the coordinates of motion field [k]. *)
Theorem deformed_source_of_single_image self source_image sparse_motions C h w :
  shape source_image = [1; C; h; w] →
  shape sparse_motions = [1; num_kp self + 1; h; w; 2] →
  0 < C ∧ 0 < h ∧ 0 < w →
  ∃ deformed,
    create_deformed_source_image self source_image sparse_motions = Some deformed ∧
    ∀ k c i j, k < num_kp self + 1 → c < C → i < h → j < w →
      get deformed [0; k; c; i; j] =
        bilinear_sample (plane source_image 0 c) h w
          (get sparse_motions [0; k; i; j; 0])
          (get sparse_motions [0; k; i; j; 1]).
Proof.
  intros Hsrc Hsm Hpos.
  destruct (deformed_source_single self source_image sparse_motions C h w
              Hsrc Hsm Hpos) as (out & Hout & _ & Hget).
  by exists out.
Qed.

Lemma deformed_source_of_single_image_witness :
  (shape Standin.image_2x2 = [1; 1; 2; 2] ∧
   shape Standin.motions_outside = [1; 2; 2; 2; 2]) ∧
  ∃ deformed,
    create_deformed_source_image (Standin.network 1 false 1)
      Standin.image_2x2 Standin.motions_outside = Some deformed ∧
    ∀ k c i j, k < 2 → c < 1 → i < 2 → j < 2 →
      get deformed [0; k; c; i; j] =
        bilinear_sample (plane Standin.image_2x2 0 c) 2 2
          (get Standin.motions_outside [0; k; i; j; 0])
          (get Standin.motions_outside [0; k; i; j; 1]).
Proof.
  split; [split; reflexivity|].
  apply (deformed_source_of_single_image (Standin.network 1 false 1)
           Standin.image_2x2 Standin.motions_outside 1 2 2);
    first [reflexivity | lia].
Defined.

Lemma pixel_outside_columns img h w y x :
  (x < 0 ∨ Z.of_nat w ≤ x)%Z → pixel img h w y x = 0%R.
Proof. intros. unfold pixel. rewrite decide_False by lia. done. Qed.

Lemma pixel_outside_rows img h w y x :
  (y < 0 ∨ Z.of_nat h ≤ y)%Z → pixel img h w y x = 0%R.
Proof. intros. unfold pixel. rewrite decide_False by lia. done. Qed.

Lemma Zfloor_outside coord size :
  outside coord size →
  let z := Zfloor (unnormalize coord size) in
  ((z < 0 ∨ Z.of_nat size ≤ z) ∧ (z + 1 < 0 ∨ Z.of_nat size ≤ z + 1))%Z.
Proof.
  intros [Hlow|Hhigh] z; subst z.
  - pose proof (Zfloor_bound (unnormalize coord size)) as [Hb _].
    assert (IZR (Zfloor (unnormalize coord size)) < IZR (-1))%R by lra.
    apply lt_IZR in H. lia.
  - rewrite INR_IZR_INZ in Hhigh. apply Zfloor_lub in Hhigh. lia.
Qed.

Lemma bilinear_sample_outside img h w gx gy :
  outside gx w ∨ outside gy h → bilinear_sample img h w gx gy = 0%R.
Proof.
  intros [Hx|Hy]; unfold bilinear_sample.
  - destruct (Zfloor_outside _ _ Hx) as [H0 H1].
    rewrite !(pixel_outside_columns img h w _ _ H0),
            !(pixel_outside_columns img h w _ _ H1). ring.
  - destruct (Zfloor_outside _ _ Hy) as [H0 H1].
    rewrite !(pixel_outside_rows img h w _ _ H0),
            !(pixel_outside_rows img h w _ _ H1). ring.
Qed.

(** Zero padding: wherever a motion field points a whole pixel outside of
    the image, the deformed source is zero, for every batch size. *)
Theorem deformed_source_zero_outside self source_image sparse_motions
    bs C h w b k i j :
  shape source_image = [bs; C; h; w] →
  shape sparse_motions = [bs; num_kp self + 1; h; w; 2] →
  0 < bs ∧ 0 < C ∧ 0 < h ∧ 0 < w →
  b < bs → k < num_kp self + 1 → i < h → j < w →
  outside (get sparse_motions [b; k; i; j; 0]) w ∨
  outside (get sparse_motions [b; k; i; j; 1]) h →
  ∃ deformed,
    create_deformed_source_image self source_image sparse_motions = Some deformed ∧
    ∀ c, c < C → get deformed [b; k; c; i; j] = 0%R.
Proof.
  intros Hsrc Hsm Hpos Hb Hk Hi Hj Hout.
  destruct (create_deformed_source_image_spec self source_image sparse_motions
              bs C h w Hsrc Hsm Hpos) as (out & Hsome & _ & _ & Hget).
  exists out. split; [done|]. intros c Hc.
  rewrite Hget by done. by apply bilinear_sample_outside.
Qed.

Lemma standin_motions_outside idx :
  in_range idx [1; 2; 2; 2; 2] → get Standin.motions_outside idx = 5%R.
Proof. intros. unfold Standin.motions_outside. by rewrite get_tabulate. Qed.

Lemma deformed_source_zero_outside_witness :
  (shape Standin.image_2x2 = [1; 1; 2; 2] ∧
   shape Standin.motions_outside = [1; 2; 2; 2; 2] ∧
   (outside (get Standin.motions_outside [0; 1; 0; 0; 0]) 2 ∨
    outside (get Standin.motions_outside [0; 1; 0; 0; 1]) 2)) ∧
  ∃ deformed,
    create_deformed_source_image (Standin.network 1 false 1)
      Standin.image_2x2 Standin.motions_outside = Some deformed ∧
    ∀ c, c < 1 → get deformed [0; 1; c; 0; 0] = 0%R.
Proof.
  assert (Hout : outside (get Standin.motions_outside [0; 1; 0; 0; 0]) 2 ∨
                 outside (get Standin.motions_outside [0; 1; 0; 0; 1]) 2).
  { left. right. rewrite standin_motions_outside by in_range_tac.
    unfold unnormalize. change (INR 2) with (1 + 1)%R. lra. }
  split; [split; [reflexivity|split; [reflexivity|exact Hout]]|].
  apply (deformed_source_zero_outside (Standin.network 1 false 1)
           Standin.image_2x2 Standin.motions_outside 1 1 2 2 0 1 0 0);
    first [reflexivity | exact Hout | cbn; lia].
Defined.

(** With [align_corners=True] the coordinates -1 and +1 are the centres of
    the first and of the last pixel of an axis: where a motion field holds
    a corner of the normalized square, the deformed source is the pixel in
    that corner of the image. *)
Theorem deformed_source_copies_corner_pixel self source_image sparse_motions
    C h w k i j (bottom right : bool) :
  shape source_image = [1; C; h; w] →
  shape sparse_motions = [1; num_kp self + 1; h; w; 2] →
  0 < C ∧ 0 < h ∧ 0 < w →
  k < num_kp self + 1 → i < h → j < w →
  get sparse_motions [0; k; i; j; 0] = corner_coordinate right →
  get sparse_motions [0; k; i; j; 1] = corner_coordinate bottom →
  ∃ deformed,
    create_deformed_source_image self source_image sparse_motions = Some deformed ∧
    ∀ c, c < C →
      get deformed [0; k; c; i; j] =
        get source_image [0; c; corner_index bottom h; corner_index right w].
Proof.
  intros Hsrc Hsm Hpos Hk Hi Hj Hgx Hgy.
  destruct (deformed_source_single self source_image sparse_motions C h w
              Hsrc Hsm Hpos) as (out & Hsome & _ & Hget).
  exists out. split; [done|]. intros c Hc.
  rewrite Hget, Hgx, Hgy by done.
  rewrite (bilinear_sample_at_pixel _ h w _ _
             (corner_index bottom h) (corner_index right w));
    first [ done
          | by apply unnormalize_corner; lia
          | unfold corner_index; destruct bottom, right; lia ].
Qed.

Lemma standin_motions_last_pixel idx :
  in_range idx [1; 2; 2; 2; 2] → get Standin.motions_last_pixel idx = 1%R.
Proof. intros. unfold Standin.motions_last_pixel. by rewrite get_tabulate. Qed.

Lemma deformed_source_copies_corner_pixel_witness :
  (shape Standin.image_2x2 = [1; 1; 2; 2] ∧
   shape Standin.motions_last_pixel = [1; 2; 2; 2; 2] ∧
   get Standin.motions_last_pixel [0; 1; 0; 0; 0] = corner_coordinate true ∧
   get Standin.motions_last_pixel [0; 1; 0; 0; 1] = corner_coordinate true) ∧
  ∃ deformed,
    create_deformed_source_image (Standin.network 1 false 1)
      Standin.image_2x2 Standin.motions_last_pixel = Some deformed ∧
    ∀ c, c < 1 →
      get deformed [0; 1; c; 0; 0] =
        get Standin.image_2x2 [0; c; corner_index true 2; corner_index true 2].
Proof.
  split.
  { split; [reflexivity|]. split; [reflexivity|].
    split; by rewrite standin_motions_last_pixel by in_range_tac. }
  apply (deformed_source_copies_corner_pixel (Standin.network 1 false 1)
           Standin.image_2x2 Standin.motions_last_pixel 1 2 2 1 0 0 true true);
    first [ reflexivity
          | by rewrite standin_motions_last_pixel by in_range_tac
          | cbn; lia ].
Defined.

(** ** The heatmaps of exchanged and of identical keypoints *)

(** Exchanging the driving and the source keypoints negates the heatmap
    representation. *)
Theorem heatmap_antisymmetric
    (kp2gaussian : dict → list nat → R → option tensor)
    self source_image kp_driving kp_source gaussian_driving gaussian_source
    bs C h w :
  shape source_image = [bs; C; h; w] →
  kp2gaussian kp_driving [h; w] (kp_variance self) = Some gaussian_driving →
  kp2gaussian kp_source [h; w] (kp_variance self) = Some gaussian_source →
  shape gaussian_driving = [bs; num_kp self; h; w] →
  shape gaussian_source = [bs; num_kp self; h; w] →
  ∃ heatmap swapped,
    create_heatmap_representations kp2gaussian self source_image
      kp_driving kp_source = Some heatmap ∧
    create_heatmap_representations kp2gaussian self source_image
      kp_source kp_driving = Some swapped ∧
    ∀ b k i j, b < bs → k < num_kp self + 1 → i < h → j < w →
      get swapped [b; k; 0; i; j] = (- get heatmap [b; k; 0%nat; i; j])%R.
Proof.
  intros Hsrc Hgd Hgs Hgd_shape Hgs_shape.
  destruct (create_heatmap_representations_spec kp2gaussian self source_image
              kp_driving kp_source gaussian_driving gaussian_source bs C h w)
    as (hm & Hhm & _ & _ & Hget); try done.
  destruct (create_heatmap_representations_spec kp2gaussian self source_image
              kp_source kp_driving gaussian_source gaussian_driving bs C h w)
    as (hm' & Hhm' & _ & _ & Hget'); try done.
  exists hm, hm'. split; [done|]. split; [done|].
  intros b k i j Hb Hk Hi Hj. rewrite Hget, Hget' by done.
  destruct k; lra.
Qed.

Lemma standin_gaussian_corner :
  ∃ gaussian,
    Standin.kp2gaussian Standin.kp_corner [2; 2] 0.01%R = Some gaussian ∧
    shape gaussian = [1; 1; 2; 2].
Proof. eexists. split; reflexivity. Qed.

Lemma standin_gaussian_centre :
  ∃ gaussian,
    Standin.kp2gaussian Standin.kp_centre [2; 2] 0.01%R = Some gaussian ∧
    shape gaussian = [1; 1; 2; 2].
Proof. eexists. split; reflexivity. Qed.

Lemma heatmap_antisymmetric_witness :
  ∃ gaussian_driving gaussian_source,
    (shape Standin.image_2x2 = [1; 1; 2; 2] ∧
     Standin.kp2gaussian Standin.kp_centre [2; 2]
       (kp_variance (Standin.network 1 false 1)) = Some gaussian_driving ∧
     Standin.kp2gaussian Standin.kp_corner [2; 2]
       (kp_variance (Standin.network 1 false 1)) = Some gaussian_source ∧
     shape gaussian_driving = [1; 1; 2; 2] ∧
     shape gaussian_source = [1; 1; 2; 2]) ∧
    ∃ heatmap swapped,
      create_heatmap_representations Standin.kp2gaussian
        (Standin.network 1 false 1) Standin.image_2x2
        Standin.kp_centre Standin.kp_corner = Some heatmap ∧
      create_heatmap_representations Standin.kp2gaussian
        (Standin.network 1 false 1) Standin.image_2x2
        Standin.kp_corner Standin.kp_centre = Some swapped ∧
      ∀ b k i j, b < 1 → k < 2 → i < 2 → j < 2 →
        get swapped [b; k; 0; i; j] = (- get heatmap [b; k; 0%nat; i; j])%R.
Proof.
  destruct standin_gaussian_centre as (gd & Hgd & Hgd_shape).
  destruct standin_gaussian_corner as (gs & Hgs & Hgs_shape).
  exists gd, gs. split.
  { split; [reflexivity|]. split; [exact Hgd|].
    split; [exact Hgs|]. split; [exact Hgd_shape|exact Hgs_shape]. }
  apply (heatmap_antisymmetric Standin.kp2gaussian (Standin.network 1 false 1)
           Standin.image_2x2 Standin.kp_centre Standin.kp_corner gd gs 1 1 2 2);
    first [reflexivity | exact Hgd | exact Hgs | exact Hgd_shape | exact Hgs_shape].
Defined.

(** When the driving and the source keypoints are the same dictionary the
    heatmap representation is zero everywhere. *)
Theorem heatmap_of_identical_keypoints
    (kp2gaussian : dict → list nat → R → option tensor)
    self source_image kp gaussian bs C h w :
  shape source_image = [bs; C; h; w] →
  kp2gaussian kp [h; w] (kp_variance self) = Some gaussian →
  shape gaussian = [bs; num_kp self; h; w] →
  ∃ heatmap,
    create_heatmap_representations kp2gaussian self source_image kp kp =
      Some heatmap ∧
    ∀ b k i j, b < bs → k < num_kp self + 1 → i < h → j < w →
      get heatmap [b; k; 0; i; j] = 0%R.
Proof.
  intros Hsrc Hg Hg_shape.
  destruct (create_heatmap_representations_spec kp2gaussian self source_image
              kp kp gaussian gaussian bs C h w)
    as (hm & Hhm & _ & _ & Hget); try done.
  exists hm. split; [done|].
  intros b k i j Hb Hk Hi Hj. rewrite Hget by done. destruct k; lra.
Qed.

Lemma heatmap_of_identical_keypoints_witness :
  ∃ gaussian,
    (shape Standin.image_2x2 = [1; 1; 2; 2] ∧
     Standin.kp2gaussian Standin.kp_centre [2; 2]
       (kp_variance (Standin.network 1 false 1)) = Some gaussian ∧
     shape gaussian = [1; 1; 2; 2]) ∧
    ∃ heatmap,
      create_heatmap_representations Standin.kp2gaussian
        (Standin.network 1 false 1) Standin.image_2x2
        Standin.kp_centre Standin.kp_centre = Some heatmap ∧
      ∀ b k i j, b < 1 → k < 2 → i < 2 → j < 2 →
        get heatmap [b; k; 0; i; j] = 0%R.
Proof.
  destruct standin_gaussian_centre as (g & Hg & Hg_shape).
  exists g. split.
  { split; [reflexivity|]. split; [exact Hg|exact Hg_shape]. }
  apply (heatmap_of_identical_keypoints Standin.kp2gaussian
           (Standin.network 1 false 1) Standin.image_2x2 Standin.kp_centre
           g 1 1 2 2);
    first [reflexivity | exact Hg | exact Hg_shape].
Defined.

(** ** Calls that fail *)

Lemma forward_fails_with_sparse_motions kp2gaussian self source_image
    kp_driving kp_source :
  (∀ image, scaled_image self source_image = Some image →
     create_sparse_motions self image kp_driving kp_source = None) →
  forward kp2gaussian self source_image kp_driving kp_source = None.
Proof.
  intros H. unfold forward.
  change (if negb _ then _ else _) with (scaled_image self source_image).
  destruct (scaled_image self source_image) as [image|] eqn:Himage;
    cbn [mbind option_bind]; [|done].
  destruct (unpack4 (shape image)) as [[[[bs c] h] w]|];
    cbn [mbind option_bind]; [|done].
  destruct (create_heatmap_representations _ _ _ _ _);
    cbn [mbind option_bind]; [|done].
  by rewrite H.
Qed.

Lemma create_sparse_motions_missing_value self source_image kp_driving kp_source :
  kp_driving !! "value" = None ∨ kp_source !! "value" = None →
  create_sparse_motions self source_image kp_driving kp_source = None.
Proof.
  intros H. unfold create_sparse_motions.
  destruct (unpack4 (shape source_image)) as [[[[bs c] h] w]|];
    cbn [mbind option_bind]; [|done].
  do 2 bind_None. destruct H as [H|H].
  - by rewrite H.
  - do 4 bind_None. by rewrite H.
Qed.

(** A keypoint dictionary without the key ['value'] makes the forward call
    fail. *)
Theorem forward_requires_value kp2gaussian self source_image kp_driving kp_source :
  kp_driving !! "value" = None ∨ kp_source !! "value" = None →
  forward kp2gaussian self source_image kp_driving kp_source = None.
Proof.
  intros H. apply forward_fails_with_sparse_motions. intros image _.
  by apply create_sparse_motions_missing_value.
Qed.

Lemma forward_requires_value_witness :
  (Standin.kp_centre !! "value" = None ∨ Standin.kp_empty !! "value" = None) ∧
  forward Standin.kp2gaussian (Standin.network 1 false 1) Standin.image_2x2
    Standin.kp_centre Standin.kp_empty = None.
Proof.
  split; [by right|].
  apply (forward_requires_value Standin.kp2gaussian (Standin.network 1 false 1)
           Standin.image_2x2 Standin.kp_centre Standin.kp_empty).
  by right.
Defined.

Lemma Z_of_shape_matches dims :
  Forall (λ d, 0 < d) dims → Forall2 dim_matches (Z_of_shape dims) dims.
Proof.
  unfold Z_of_shape. induction 1 as [|d dims Hd _ IH]; [constructor|].
  rewrite fmap_cons. constructor; [by right|done].
Qed.

Lemma Z_of_shape_no_infer dims :
  length (filter (λ z, z = (-1)%Z) (Z_of_shape dims)) = 0.
Proof.
  unfold Z_of_shape. induction dims as [|d dims IH]; [done|].
  rewrite fmap_cons, filter_cons, decide_False by lia. done.
Qed.

(** [reshape] raises when no dimension is left to be inferred and the
    element counts differ. *)
Lemma reshape_mismatch dims t :
  Forall (λ d, 0 < d) dims →
  numel dims ≠ numel (shape t) →
  reshape (Z_of_shape dims) t = None.
Proof.
  intros Hpos Hne.
  pose proof (Z_of_shape_matches dims Hpos) as Hm.
  pose proof (Z_of_shape_no_infer dims) as Hc.
  unfold reshape.
  rewrite option_guard_True by (eapply dim_ok_zip; done).
  rewrite option_guard_True by lia.
  rewrite !(imap_dim_of _ _ _ _ Hm).
  destruct (dim_value_resolve _ _ Hm Hpos) as [H0 _].
  rewrite (H0 Hc). by rewrite option_guard_False.
Qed.

Lemma create_sparse_motions_keypoint_count self source_image kp_driving kp_source
    value bs C h w :
  shape source_image = [bs; C; h; w] →
  0 < bs → 0 < num_kp self →
  numel (shape value) ≠ bs * num_kp self * 2 →
  kp_driving !! "value" = Some value ∨ kp_source !! "value" = Some value →
  create_sparse_motions self source_image kp_driving kp_source = None.
Proof.
  intros Hsrc Hbs HK Hne Hvalue.
  assert (Hreshape : reshape (Z_of_shape [bs; num_kp self; 1; 1; 2]) value = None).
  { apply reshape_mismatch.
    - repeat (apply Forall_cons_2; [lia|]). apply Forall_nil_2.
    - cbn [numel foldr]. lia. }
  unfold create_sparse_motions. rewrite Hsrc. cbn [unpack4 mbind option_bind].
  do 2 bind_None. destruct Hvalue as [H|H].
  - rewrite H. cbn [mbind option_bind]. by rewrite Hreshape.
  - do 4 bind_None. rewrite H. cbn [mbind option_bind]. by rewrite Hreshape.
Qed.

(** A keypoint tensor whose element count is not [bs * num_kp * 2], bs being
    the batch size of the image the network works on, makes the forward
    call fail. *)
Theorem forward_rejects_keypoint_count kp2gaussian self source_image image
    kp_driving kp_source value bs C h w :
  scaled_image self source_image = Some image →
  shape image = [bs; C; h; w] →
  0 < bs → 0 < num_kp self →
  numel (shape value) ≠ bs * num_kp self * 2 →
  kp_driving !! "value" = Some value ∨ kp_source !! "value" = Some value →
  forward kp2gaussian self source_image kp_driving kp_source = None.
Proof.
  intros Himage Hshape Hbs HK Hne Hvalue.
  apply forward_fails_with_sparse_motions. intros image' Himage'.
  assert (image' = image) as -> by congruence.
  by eapply create_sparse_motions_keypoint_count.
Qed.

Lemma forward_rejects_keypoint_count_witness :
  (scaled_image (Standin.network 1 false 1) Standin.image_2x2 =
     Some Standin.image_2x2 ∧
   shape Standin.image_2x2 = [1; 1; 2; 2] ∧
   numel [1; 2; 2] ≠ 1 * 1 * 2 ∧
   Standin.kp_pair !! "value" = Some (Tensor [1; 2; 2] [0%R; 0%R; 0%R; 0%R])) ∧
  forward Standin.kp2gaussian (Standin.network 1 false 1) Standin.image_2x2
    Standin.kp_pair Standin.kp_centre = None.
Proof.
  split; [repeat split; first [reflexivity | cbn; lia]|].
  apply (forward_rejects_keypoint_count Standin.kp2gaussian
           (Standin.network 1 false 1) Standin.image_2x2 Standin.image_2x2
           Standin.kp_pair Standin.kp_centre
           (Tensor [1; 2; 2] [0%R; 0%R; 0%R; 0%R]) 1 1 2 2);
    first [reflexivity | by left | cbn; lia].
Defined.

Lemma unpack4_None s : length s ≠ 4 → unpack4 s = None.
Proof. destruct s as [|? [|? [|? [|? [|? ?]]]]]; cbn; done. Qed.

(** The image the network works on must have four axes: the forward call
    fails on any other rank. *)
Theorem forward_requires_rank4 kp2gaussian self source_image image
    kp_driving kp_source :
  scaled_image self source_image = Some image →
  length (shape image) ≠ 4 →
  forward kp2gaussian self source_image kp_driving kp_source = None.
Proof.
  intros Himage Hrank. unfold forward.
  change (if negb _ then _ else _) with (scaled_image self source_image).
  rewrite Himage. cbn [mbind option_bind].
  by rewrite unpack4_None.
Qed.

Lemma forward_requires_rank4_witness :
  (scaled_image (Standin.network 1 false 1) Standin.image_rank3 =
     Some Standin.image_rank3 ∧
   length (shape Standin.image_rank3) ≠ 4) ∧
  forward Standin.kp2gaussian (Standin.network 1 false 1) Standin.image_rank3
    Standin.kp_centre Standin.kp_centre = None.
Proof.
  split; [split; [reflexivity|cbn; lia]|].
  apply (forward_requires_rank4 Standin.kp2gaussian (Standin.network 1 false 1)
           Standin.image_rank3 Standin.image_rank3
           Standin.kp_centre Standin.kp_centre);
    [reflexivity|cbn; lia].
Defined.

Lemma inverse_singular jacobian bs K b k :
  shape jacobian = [bs; K; 2; 2] → b < bs → k < K →
  det2 jacobian [b; k] = 0%R →
  inverse jacobian = None.
Proof.
  intros Hshape Hb Hk Hdet. unfold inverse. rewrite Hshape.
  cbn [length Nat.sub take drop].
  rewrite option_guard_True by done.
  rewrite option_guard_False; [done|].
  intros Hall. rewrite Forall_forall in Hall.
  assert (Hin : in_range [b; k] [bs; K]) by in_range_tac.
  apply (Hall (ravel [bs; K] [b; k])).
  - apply elem_of_seq. pose proof (ravel_lt _ _ Hin). lia.
  - by rewrite unravel_ravel.
Qed.

Lemma det2_zero_line x bi : has_zero_line x bi → det2 x bi = 0%R.
Proof.
  unfold det2.
  intros [(i & Hi & H0 & H1)|(j & Hj & H0 & H1)].
  - destruct i as [|[|i]]; [| |lia]; rewrite H0, H1; ring.
  - destruct j as [|[|j]]; [| |lia]; rewrite H0, H1; ring.
Qed.

(** A driving jacobian with a zero row or a zero column makes the forward
    call fail: the matrix inversion meets a zero pivot and raises. *)
Theorem forward_rejects_zero_line_jacobian kp2gaussian self source_image
    kp_driving kp_source jacobian_driving bs K b k :
  kp_driving !! "jacobian" = Some jacobian_driving →
  shape jacobian_driving = [bs; K; 2; 2] →
  b < bs → k < K →
  has_zero_line jacobian_driving [b; k] →
  forward kp2gaussian self source_image kp_driving kp_source = None.
Proof.
  intros Hjac Hshape Hb Hk Hzero.
  apply forward_fails_with_sparse_motions. intros image _.
  apply (create_sparse_motions_singular _ _ _ _ jacobian_driving); [done|].
  apply (inverse_singular _ bs K b k); try done. by apply det2_zero_line.
Qed.

Lemma standin_zero_row : has_zero_line Standin.jacobian_zero_row [0; 0].
Proof.
  left. exists 0. split; [lia|].
  unfold entry2, get. split; cbv -[IZR]; reflexivity.
Qed.

Lemma forward_rejects_zero_line_jacobian_witness :
  (Standin.kp_zero_row !! "jacobian" = Some Standin.jacobian_zero_row ∧
   shape Standin.jacobian_zero_row = [1; 1; 2; 2] ∧
   has_zero_line Standin.jacobian_zero_row [0; 0]) ∧
  forward Standin.kp2gaussian (Standin.network 1 false 1) Standin.image_2x2
    Standin.kp_zero_row Standin.kp_identity = None.
Proof.
  split; [split; [reflexivity|split; [reflexivity|exact standin_zero_row]]|].
  apply (forward_rejects_zero_line_jacobian Standin.kp2gaussian
           (Standin.network 1 false 1) Standin.image_2x2
           Standin.kp_zero_row Standin.kp_identity
           Standin.jacobian_zero_row 1 1 0 0);
    first [reflexivity | exact standin_zero_row | lia].
Defined.

(** ** Construction *)

(** The layers wired by [__init__] fit together: when the hourglass and the
    convolutions keep batch size, height and width and produce the
    channels they are built for, the network accepts the
    [(num_kp + 1) * (num_channels + 1)] channels that [forward] assembles
    and its heads produce [num_kp + 1] channels and one channel. *)
Theorem init_network_ok Hourglass weights Conv2D AntiAliasInterpolation2d
    (mask_weights occlusion_weights : weights)
    block_expansion num_blocks max_features num_kp num_channels
    (estimate_occlusion_map : bool) scale_factor kp_variance :
  (∀ be inf mf nb,
     layer_maps (hourglass_forward (Hourglass be inf mf nb)) inf
                (out_filters (Hourglass be inf mf nb))) →
  (∀ (wt : weights) cin cout, layer_maps (Conv2D wt cin cout) cin cout) →
  network_ok
    (init Hourglass weights Conv2D AntiAliasInterpolation2d
          mask_weights occlusion_weights block_expansion num_blocks max_features
          num_kp num_channels estimate_occlusion_map scale_factor kp_variance)
    num_channels.
Proof.
  intros Hhg Hconv.
  exists (out_filters (Hourglass block_expansion ((num_kp + 1) * (num_channels + 1))
                         max_features num_blocks)).
  split; [apply Hhg|]. split; [apply Hconv|].
  intros occ Hocc. cbn in Hocc. destruct estimate_occlusion_map; [|done].
  injection Hocc as <-. apply Hconv.
Qed.

Lemma init_network_ok_witness :
  ((∀ be inf mf nb,
      layer_maps (hourglass_forward (Standin.Hourglass be inf mf nb)) inf
                 (out_filters (Standin.Hourglass be inf mf nb))) ∧
   (∀ (wt : R) cin cout, layer_maps (Standin.Conv2D wt cin cout) cin cout)) ∧
  network_ok (Standin.network 10 true (1 # 4)) 1.
Proof.
  split; [split; [apply standin_layer_maps_hourglass|apply standin_layer_maps_conv]|].
  apply (init_network_ok Standin.Hourglass R Standin.Conv2D
           Standin.AntiAliasInterpolation2d 0%R 0%R 4 1 8 10 1 true (1 # 4) 0.01%R);
    [apply standin_layer_maps_hourglass|apply standin_layer_maps_conv].
Defined.

(** A network constructed with scale factor 1 has no downsampling layer and
    works on the source image itself: every returned tensor has the height
    and width of the source image. *)
Theorem outputs_at_source_resolution Hourglass weights Conv2D
    AntiAliasInterpolation2d kp2gaussian (mask_weights occlusion_weights : weights)
    block_expansion num_blocks max_features num_kp num_channels
    (estimate_occlusion_map : bool) scale_factor kp_variance
    source_image image kp_driving kp_source bs h w :
  Qeq_bool scale_factor 1 = true →
  valid_call kp2gaussian
    (init Hourglass weights Conv2D AntiAliasInterpolation2d
          mask_weights occlusion_weights block_expansion num_blocks max_features
          num_kp num_channels estimate_occlusion_map scale_factor kp_variance)
    source_image image kp_driving kp_source bs num_channels h w →
  down (init Hourglass weights Conv2D AntiAliasInterpolation2d
             mask_weights occlusion_weights block_expansion num_blocks max_features
             num_kp num_channels estimate_occlusion_map scale_factor kp_variance)
    = None ∧
  image = source_image ∧
  shape source_image = [bs; num_channels; h; w] ∧
  ∃ out sparse_deformed mask_tensor deformation,
    forward kp2gaussian
      (init Hourglass weights Conv2D AntiAliasInterpolation2d
            mask_weights occlusion_weights block_expansion num_blocks max_features
            num_kp num_channels estimate_occlusion_map scale_factor kp_variance)
      source_image kp_driving kp_source = Some out ∧
    out !! "sparse_deformed" = Some sparse_deformed ∧
    out !! "mask" = Some mask_tensor ∧
    out !! "deformation" = Some deformation ∧
    shape sparse_deformed = [bs; num_kp + 1; num_channels; h; w] ∧
    shape mask_tensor = [bs; num_kp + 1; h; w] ∧
    shape deformation = [bs; h; w; 2] ∧
    ∀ occlusion_map, out !! "occlusion_map" = Some occlusion_map →
      shape occlusion_map = [bs; 1; h; w].
Proof.
  intros Hscale Hvalid.
  assert (Himage : image = source_image).
  { destruct Hvalid as (_ & Himage & _). unfold scaled_image in Himage.
    cbn in Himage. rewrite Hscale in Himage. cbn in Himage. congruence. }
  split; [cbn; by rewrite Hscale|].
  split; [done|]. split; [rewrite <-Himage; apply Hvalid|].
  destruct (forward_valid _ _ _ _ _ _ _ _ _ _ Hvalid)
    as (sm & ds & pred & m & def & _ & _ & Hfw & (filters & Hpred & _ & Hocc) &
        Hds & Hm & Hdef & _).
  destruct (output_record_lookup
              (init Hourglass weights Conv2D AntiAliasInterpolation2d
                    mask_weights occlusion_weights block_expansion num_blocks
                    max_features num_kp num_channels estimate_occlusion_map
                    scale_factor kp_variance) ds m def pred)
    as (Hl1 & Hl2 & Hl3 & Hl4).
  eexists _, ds, m, def. split; [exact Hfw|].
  do 6 (split; [done|]).
  intros occ Hsome. rewrite Hl4 in Hsome.
  apply fmap_Some in Hsome as (occlusion_layer & Hlayer & ->).
  exact (Hocc _ Hlayer _ _ _ _ Hpred).
Qed.

Lemma outputs_at_source_resolution_witness :
  (Qeq_bool 1 1 = true ∧
   valid_call Standin.kp2gaussian (Standin.network 1 true 1)
     Standin.image_2x2 Standin.image_2x2 Standin.kp_centre Standin.kp_centre
     1 1 2 2) ∧
  down (Standin.network 1 true 1) = None ∧
  Standin.image_2x2 = Standin.image_2x2 ∧
  shape Standin.image_2x2 = [1; 1; 2; 2] ∧
  ∃ out sparse_deformed mask_tensor deformation,
    forward Standin.kp2gaussian (Standin.network 1 true 1)
      Standin.image_2x2 Standin.kp_centre Standin.kp_centre = Some out ∧
    out !! "sparse_deformed" = Some sparse_deformed ∧
    out !! "mask" = Some mask_tensor ∧
    out !! "deformation" = Some deformation ∧
    shape sparse_deformed = [1; 2; 1; 2; 2] ∧
    shape mask_tensor = [1; 2; 2; 2] ∧
    shape deformation = [1; 2; 2; 2] ∧
    ∀ occlusion_map, out !! "occlusion_map" = Some occlusion_map →
      shape occlusion_map = [1; 1; 2; 2].
Proof.
  split; [split; [reflexivity|apply standin_valid_2x2]|].
  apply (outputs_at_source_resolution Standin.Hourglass R Standin.Conv2D
           Standin.AntiAliasInterpolation2d Standin.kp2gaussian 0%R 0%R
           4 1 8 1 1 true 1 0.01%R Standin.image_2x2 Standin.image_2x2
           Standin.kp_centre Standin.kp_centre 1 2 2);
    [reflexivity|apply standin_valid_2x2].
Defined.

(** ** The returned record *)

(** Every record returned by [forward] holds exactly the keys
    ['sparse_deformed'], ['mask'] and ['deformation'], and
    ['occlusion_map'] when the network has an occlusion layer. *)
Theorem forward_keys kp2gaussian self source_image kp_driving kp_source out :
  forward kp2gaussian self source_image kp_driving kp_source = Some out →
  dom out =
    ({["sparse_deformed"]} ∪ {["mask"]} ∪ {["deformation"]} ∪
     (match occlusion self with
      | Some _ => {["occlusion_map"]}
      | None => ∅
      end) : gset string).
Proof.
  intros H. unfold forward in H.
  apply bind_Some in H as (image & _ & H).
  apply bind_Some in H as ([[[bs c] h] w] & _ & H).
  do 11 (apply bind_Some in H as (? & _ & H)).
  injection H as <-.
  destruct (occlusion self); rewrite ?dom_insert_L, dom_empty_L; set_solver.
Qed.

Lemma forward_keys_witness :
  ∃ out,
    forward Standin.kp2gaussian (Standin.network 1 true 1) Standin.image_2x2
      Standin.kp_centre Standin.kp_centre = Some out ∧
    dom out =
      ({["sparse_deformed"]} ∪ {["mask"]} ∪ {["deformation"]} ∪
       (match occlusion (Standin.network 1 true 1) with
        | Some _ => {["occlusion_map"]}
        | None => ∅
        end) : gset string).
Proof.
  destruct (forward_valid _ _ _ _ _ _ _ _ _ _ (standin_valid_2x2 true))
    as (sm & ds & pred & m & def & _ & _ & Hfw & _).
  eexists. split; [exact Hfw|].
  apply (forward_keys Standin.kp2gaussian (Standin.network 1 true 1)
           Standin.image_2x2 Standin.kp_centre Standin.kp_centre).
  exact Hfw.
Defined.

(** ** The input of the hourglass *)

(** The hourglass is applied to a tensor of
    [(num_kp + 1) * (num_channels + 1)] channels, the count it was
    constructed for: for every entry [k] of the keypoint axis, first the
    heatmap of [k], then the channels of the image deformed by motion
    field [k].  The heads read its output on that tensor: the mask is the
    softmax, over the keypoint axis, of the mask convolution of that
    output, and the occlusion map the sigmoid of its occlusion
    convolution. *)
Theorem hourglass_input_layout kp2gaussian self source_image image kp_driving
    kp_source bs C h w :
  valid_call kp2gaussian self source_image image kp_driving kp_source bs C h w →
  ∃ heatmap sparse_motion deformed_source buffer out mask_tensor,
    create_heatmap_representations kp2gaussian self image kp_driving kp_source =
      Some heatmap ∧
    create_sparse_motions self image kp_driving kp_source = Some sparse_motion ∧
    create_deformed_source_image self image sparse_motion = Some deformed_source ∧
    shape buffer = [bs; (num_kp self + 1) * (C + 1); h; w] ∧
    (∀ b k c i j, b < bs → k < num_kp self + 1 → c < C + 1 → i < h → j < w →
       get buffer [b; k * (C + 1) + c; i; j] =
         match c with
         | 0 => get heatmap [b; k; 0; i; j]
         | S c' => get deformed_source [b; k; c'; i; j]
         end) ∧
    forward kp2gaussian self source_image kp_driving kp_source = Some out ∧
    out !! "mask" = Some mask_tensor ∧
    (∀ b k i j, b < bs → k < num_kp self + 1 → i < h → j < w →
       get mask_tensor [b; k; i; j] =
         (exp (get (mask self (hourglass self buffer)) [b; k; i; j]) /
          sum_upto (num_kp self + 1)
            (λ k', exp (get (mask self (hourglass self buffer)) [b; k'; i; j])))%R) ∧
    out !! "occlusion_map" =
      (λ occlusion_layer, sigmoid (occlusion_layer (hourglass self buffer)))
        <$> occlusion self.
Proof.
  intros Hvalid.
  destruct (forward_valid_buffer _ _ _ _ _ _ _ _ _ _ Hvalid)
    as (hm & sm & ds & buf & m & def & Hhm & Hsm & Hds & Hbuf_shape & Hbuf &
        Hfw & _ & Hm).
  destruct (output_record_lookup self ds m def (hourglass self buf))
    as (_ & Hmask & _ & Hocc).
  exists hm, sm, ds, buf, (output_record self ds m def (hourglass self buf)), m.
  repeat (split; [done|]). done.
Qed.

Lemma hourglass_input_layout_witness :
  valid_call Standin.kp2gaussian (Standin.network 1 true 1)
    Standin.image_2x2 Standin.image_2x2 Standin.kp_centre Standin.kp_centre 1 1 2 2 ∧
  ∃ heatmap sparse_motion deformed_source buffer out mask_tensor,
    create_heatmap_representations Standin.kp2gaussian (Standin.network 1 true 1)
      Standin.image_2x2 Standin.kp_centre Standin.kp_centre = Some heatmap ∧
    create_sparse_motions (Standin.network 1 true 1) Standin.image_2x2
      Standin.kp_centre Standin.kp_centre = Some sparse_motion ∧
    create_deformed_source_image (Standin.network 1 true 1) Standin.image_2x2
      sparse_motion = Some deformed_source ∧
    shape buffer = [1; 4; 2; 2] ∧
    (∀ b k c i j, b < 1 → k < 2 → c < 2 → i < 2 → j < 2 →
       get buffer [b; k * 2 + c; i; j] =
         match c with
         | 0 => get heatmap [b; k; 0; i; j]
         | S c' => get deformed_source [b; k; c'; i; j]
         end) ∧
    forward Standin.kp2gaussian (Standin.network 1 true 1) Standin.image_2x2
      Standin.kp_centre Standin.kp_centre = Some out ∧
    out !! "mask" = Some mask_tensor ∧
    (∀ b k i j, b < 1 → k < 2 → i < 2 → j < 2 →
       get mask_tensor [b; k; i; j] =
         (exp (get (mask (Standin.network 1 true 1)
                      (hourglass (Standin.network 1 true 1) buffer)) [b; k; i; j]) /
          sum_upto 2
            (λ k', exp (get (mask (Standin.network 1 true 1)
                              (hourglass (Standin.network 1 true 1) buffer))
                          [b; k'; i; j])))%R) ∧
    out !! "occlusion_map" =
      (λ occlusion_layer,
         sigmoid (occlusion_layer (hourglass (Standin.network 1 true 1) buffer)))
        <$> occlusion (Standin.network 1 true 1).
Proof.
  split; [apply standin_valid_2x2|].
  apply (hourglass_input_layout Standin.kp2gaussian (Standin.network 1 true 1)
           Standin.image_2x2 Standin.image_2x2 Standin.kp_centre Standin.kp_centre
           1 1 2 2).
  apply standin_valid_2x2.
Defined.
